(** * SrtTrans: the batch translation dispatcher and the history cache

    A shallow embedding of [src/endpoint/endpoint.py] (the translation
    client [translate_text] and the dispatcher [translate_batch]) and of
    [src/main.py] (the subtitle parser, the history cache and the merge of
    [translate_entries], the writer [save_translated_srt]).

    Python values are modelled as follows.
    - [str] is a list of Unicode code points ([list N]); [py "abc"] turns an
      ASCII literal into one.
    - [int] is [Z]; a [dict] with string keys is a [gmap]; a [list] is a
      [list], indexed with [!!], where an index out of range (IndexError)
      is [None].
    - A call that may raise returns an [option], [None] standing for the
      exception; [translate_batch], which can also wait for ever, returns
      a [run].
    - Library functions that the repository calls but does not define
      ([int], [float], float arithmetic, [datetime.fromtimestamp]) are the
      fields of the class [PyRuntime], and so is what [open] depends on:
      the directory that a path leads to, and whether a name in it can
      be written.
    - The files are a map from a directory and a name in it to the text
      of the file. [open] raises when the directory of the path is
      missing or the name cannot be written, and two paths are one file
      when they lead to the same directory and end in the same name.
      The texts are such as can be written (no lone surrogate), and the
      device takes them.
    - The exceptions are those of class [Exception], which the handlers
      of the program catch; logging, the progress bar and the prints
      have no part in a result and are left out. *)

From Stdlib Require Import ZArith NArith QArith String List Lia.
From Stdlib.Strings Require Import Byte.
From Stdlib Require Import DecimalString.
From Equations Require Import Equations.
From stdpp Require Import base option list gmap.

Set Default Proof Using "Type".
Local Open Scope Z_scope.

(* ===================================================================== *)
(** ** Python strings                                                      *)
(* ===================================================================== *)

Abbreviation str := (list N).

(** An ASCII literal as a [str]. *)
Definition py (s : string) : str :=
  map Byte.to_N (list_byte_of_string s).

(** The line feed of ['\n']. *)
Definition LF : N := 10%N.

(** [c.isspace()], the characters removed by [str.strip()]. *)
Definition is_space (c : N) : bool :=
  (((9 <=? c) && (c <=? 13)) || ((28 <=? c) && (c <=? 32)) ||
   (c =? 133) || (c =? 160) || (c =? 5760) ||
   ((8192 <=? c) && (c <=? 8202)) ||
   (c =? 8232) || (c =? 8233) || (c =? 8239) || (c =? 8287) ||
   (c =? 12288))%N.

Fixpoint lstrip (s : str) : str :=
  match s with
  | [] => []
  | c :: s' => if is_space c then lstrip s' else s
  end.

Definition rstrip (s : str) : str := rev (lstrip (rev s)).

(** [s.strip()] *)
Definition strip (s : str) : str := rstrip (lstrip s).

(** Whether [p] is a prefix of [s]. *)
Fixpoint starts_with (p s : str) : bool :=
  match p, s with
  | [], _ => true
  | _ :: _, [] => false
  | a :: p', b :: s' => (a =? b)%N && starts_with p' s'
  end.

(** The scan of [s.split(sep)] for a non-empty [sep]: [cur] is the piece
    being read (reversed) and [skip] counts the characters of a matched
    separator that are still to be passed over. *)
Fixpoint split_scan (sep : str) (skip : nat) (cur : str) (s : str) : list str :=
  match s with
  | [] => [rev cur]
  | c :: s' =>
      match skip with
      | S k => split_scan sep k cur s'
      | O =>
          if starts_with sep s
          then rev cur :: split_scan sep (pred (length sep)) [] s'
          else split_scan sep O (c :: cur) s'
      end
  end.

(** [s.split(sep)] *)
Definition split (s sep : str) : list str := split_scan sep O [] s.

(** [sep.join(parts)] *)
Fixpoint join (sep : str) (parts : list str) : str :=
  match parts with
  | [] => []
  | [p] => p
  | p :: ps => p ++ sep ++ join sep ps
  end.

(** [s.replace(a, b)] for one-character [a] and [b]. *)
Definition replace_char (a b : N) (s : str) : str :=
  map (fun c => if (c =? a)%N then b else c) s.

(** [str(n)] for an [int]. *)
Definition str_of_int (n : Z) : str :=
  py (NilZero.string_of_int (Z.to_int n)).

(** Truth value of a [str]: non-empty. *)
Definition truthy (s : str) : bool :=
  match s with [] => false | _ :: _ => true end.

(** [sorted(l, key=key)]: Python's sort is stable, and so is this
    insertion sort; [lt] is the [<] of the keys. *)
Fixpoint insert_sorted {A K} (lt : K -> K -> bool) (key : A -> K)
    (x : A) (l : list A) : list A :=
  match l with
  | [] => [x]
  | y :: l' =>
      if lt (key y) (key x) then y :: insert_sorted lt key x l' else x :: l
  end.

Definition sorted {A K} (lt : K -> K -> bool) (key : A -> K)
    (l : list A) : list A :=
  foldr (insert_sorted lt key) [] l.

(* ===================================================================== *)
(** ** The Python runtime                                                  *)
(* ===================================================================== *)

(** The functions of the Python library that the program calls. *)
Class PyRuntime := {
  (** the type [float] *)
  pyfloat : Type;
  (** the literal [2.0], default of [retry_delay] *)
  float_2_0 : pyfloat;
  (** [x * n] for a float [x] and an int [n] *)
  float_mul_int : pyfloat -> Z -> pyfloat;
  (** [n + x] for an int [n] and a float [x]; [None] is OverflowError *)
  int_add_float : Z -> pyfloat -> option pyfloat;
  (** [int(s)]; [None] is ValueError *)
  py_int : str -> option Z;
  (** [float(s)]; [None] is ValueError *)
  py_float : str -> option pyfloat;
  (** the type [datetime] *)
  datetime : Type;
  (** [datetime.fromtimestamp(x)]; [None] is an OSError, OverflowError
      or ValueError *)
  fromtimestamp : pyfloat -> option datetime;
  (** [a < b] on [datetime] values *)
  datetime_lt : datetime -> datetime -> bool;
  (** the directory that the part of a path up to its last slash names
      (the empty part is the working directory), as [open] finds it;
      [None] when there is none, and [open] raises. Two parts can name
      one directory, as [a/../] and the empty one do. The run makes and
      removes no directory, so this is the same at every [open]. *)
  directory : str -> option str;
  (** whether [open(path, 'w')] succeeds on the name in the directory:
      not on a name that is a directory itself, or that the process may
      not write *)
  writable : str -> str -> bool
}.

(** A value together with the equation that it is the value of [a], for
    a [with] clause that has to remember the outcome of a test. *)
Definition inspect {A} (a : A) : {b : A | a = b} := exist _ a eq_refl.

(* ===================================================================== *)
(** ** Files                                                               *)
(* ===================================================================== *)

(** What [open] does with a path: it goes to the directory that the
    part up to the last slash names and takes the rest as a name in it.
    A file is told by its directory and its name there (a name is one
    file: no second name of a directory is a link to the same file), and
    the files of the machine are a map from files to their text, as
    [f.read()] returns it. *)
Fixpoint until_slash (r : str) : str :=
  match r with
  | [] => []
  | c :: r' => if (c =? 47)%N then [] else c :: until_slash r'
  end.

Definition basename (path : str) : str := rev (until_slash (rev path)).

Definition dirname (path : str) : str :=
  rev (drop (length (until_slash (rev path))) (rev path)).

Abbreviation file := (str * str)%type.
Abbreviation files := (gmap file str).

Definition file_of {R : PyRuntime} (path : str) : option file :=
  d ← directory (dirname path);
  Some (d, basename path).

(** [open(path, 'r')] and [f.read()]; [None] is the FileNotFoundError
    (or other OSError) of [open]. *)
Definition read_text {R : PyRuntime} (fs : files) (path : str) : option str :=
  f ← file_of path;
  fs !! f.

(** [open(path, 'w')], the writes of [text] and the close; [None] is
    the OSError of [open], raised before the file is touched. *)
Definition write_text {R : PyRuntime} (path text : str) (fs : files)
    : option files :=
  f ← file_of path;
  if writable f.1 f.2 then Some (<[f := text]> fs) else None.

(** A call that writes files: it returned, or it raised; either way the
    files are as it left them. *)
Inductive saving :=
  | Saved (fs : files)
  | Failed (fs : files).

Definition files_after (s : saving) : files :=
  match s with
  | Saved fs => fs
  | Failed fs => fs
  end.

(* ===================================================================== *)
(** ** endpoint.py: the translation client                                 *)
(* ===================================================================== *)

(** What one pass through the [try] block of [translate_text] ends in:
    the [content] field of a well-formed answer, [asyncio.TimeoutError],
    or any other [Exception] (transport error, HTTP status, an ["error"]
    field in the body, a malformed body). *)
Inductive response :=
  | Content (content : str)
  | TimeoutError
  | Error.

(** What [translate_text] does that can be observed from outside: the
    POST of attempt number [retry_count] and the back-off sleeps. *)
Inductive event {R : PyRuntime} :=
  | Post (retry_count : Z)
  | Sleep (delay : pyfloat).

Section translate_text.
Context {R : PyRuntime}.
Variable text : str.
(** [client k] is the outcome of the request made when [retry_count]
    is [k]. *)
Variable client : Z -> response.
Variable max_retries : Z.
Variable retry_delay : pyfloat.

(** The [while retry_count <= max_retries] loop, entered with the given
    [retry_count]. The value is what the function returns ([None] is
    Python's [None], returned when the loop ends without a [return])
    and the events in the order they happen. *)
Equations? translate_text_loop (retry_count : Z) : option str * list event
  by wf (Z.to_nat (max_retries + 1 - retry_count)) lt :=
translate_text_loop retry_count with inspect (retry_count <=? max_retries) := {
  | exist _ false _ => (None, []);
  | exist _ true Hwhile with client retry_count := {
    | Content content => (Some (strip content), [Post retry_count]);
    | TimeoutError with inspect (retry_count + 1 <=? max_retries) := {
      | exist _ true Hretry =>
          let '(result, events) := translate_text_loop (retry_count + 1) in
          (result,
           Post retry_count
             :: Sleep (float_mul_int retry_delay (retry_count + 1))
             :: events);
      | exist _ false _ => (Some text, [Post retry_count]) };
    | Error with inspect (retry_count + 1 <=? max_retries) := {
      | exist _ true Hretry =>
          let '(result, events) := translate_text_loop (retry_count + 1) in
          (result,
           Post retry_count
             :: Sleep (float_mul_int retry_delay (retry_count + 1))
             :: events);
      | exist _ false _ => (Some text, [Post retry_count]) } } }.
Proof. all: lia. Qed.

(** [translate_text(text, target_language, session, max_retries,
    retry_delay)]: the loop entered with [retry_count = 0]. *)
Definition translate_text : option str * list event :=
  translate_text_loop 0.
End translate_text.

(** Whether an attempt ended in one of the two [except] handlers. *)
Definition failed (r : response) : bool :=
  match r with
  | Content _ => false
  | TimeoutError | Error => true
  end.

(* ===================================================================== *)
(** ** endpoint.py: the dispatcher                                         *)
(* ===================================================================== *)

(** The defaults of [translate_text], which [translate_batch] relies on. *)
Definition default_max_retries : Z := 3.

(** One slot of the list that [asyncio.gather] returns when it is called
    with [return_exceptions=True]: the tuple [(index, result)] that the
    task returned, or the [Exception] it raised. *)
Inductive task_result :=
  | Returned (index : Z) (result : option str)
  | Raised.

(** The world outside one batch: [responses target_language i k] is what
    the request of unit [i] for that language ends in when its
    [retry_count] is [k], and [fails i] holds when the work of unit [i]
    ends in an [Exception] that no handler of [translate_text] catches. *)
Record environment := {
  responses : str -> nat -> Z -> response;
  fails : nat -> bool
}.

(** A call that returns, raises, or never returns. *)
Inductive run (A : Type) :=
  | Returns (a : A)
  | Raises
  | Blocks.
Arguments Returns {A} a.
Arguments Raises {A}.
Arguments Blocks {A}.

Section translate_batch.
Context {R : PyRuntime}.
Variable env : environment.
Variable texts : list str.
Variable target_language : str.

(** What the task of [(text, index)] ends in when [translate_text] has
    returned [result]: the tuple, or the exception of a unit that
    fails. *)
Definition complete (index : nat) (result : option str) : task_result :=
  if fails env index then Raised else Returned (Z.of_nat index) result.

(** The coroutine [translate_with_semaphore(text, index)], run from its
    start to its end. *)
Definition translate_with_semaphore (text : str) (index : nat) : task_result :=
  complete index
    (translate_text text (responses env target_language index)
       default_max_retries float_2_0).1.

(** [results = await asyncio.gather(..., return_exceptions=True)]:
    the result of every task, in the order of the tasks. *)
Definition gather : list task_result :=
  imap (fun i text => translate_with_semaphore text i) texts.

(** The loop over [enumerate(results)] that fills [processed_results],
    entered at position [i]. *)
Fixpoint process_results (i : nat) (results : list task_result)
    : option (list (Z * option str)) :=
  match results with
  | [] => Some []
  | result :: rest =>
      item ← match result with
             | Raised => text ← texts !! i; Some (Z.of_nat i, Some text)
             | Returned index r => Some (index, r)
             end;
      processed ← process_results (S i) rest;
      Some (item :: processed)
  end.

(** The end of [translate_batch], from the list that [gather] gave. *)
Definition collect (results : list task_result) : option (list (option str)) :=
  processed_results ← process_results O results;
  let sorted_results := sorted Z.ltb fst processed_results in
  Some (snd <$> sorted_results).

(** [translate_batch(texts, target_language, max_concurrency)].
    [asyncio.Semaphore] refuses a negative value with a ValueError; with
    the value 0 no task ever enters, so [gather] never ends unless there
    is no task at all. *)
Definition translate_batch (max_concurrency : Z) : run (list (option str)) :=
  if max_concurrency <? 0 then Raises
  else if (max_concurrency =? 0) && negb (bool_decide (texts = [])) then Blocks
  else match collect gather with
       | Some translated => Returns translated
       | None => Raises
       end.

(** *** The tasks of one batch, step by step

    The event loop runs one task at a time and switches task only at an
    [await]. Between two such points a task is in one of these phases. *)
Inductive phase :=
  | Queued                      (* waiting at [async with semaphore] *)
  | InFlight (retry_count : Z)  (* holds the semaphore, request sent *)
  | Backoff (retry_count : Z)   (* holds the semaphore, in [asyncio.sleep] *)
  | Done (result : task_result). (* left the semaphore, result collected *)

(** The semaphore's counter and the phase of every task. *)
Record dispatcher := {
  permits : Z;
  tasks : list phase
}.

Definition is_in_flight (p : phase) : bool :=
  match p with InFlight _ => true | _ => false end.

Definition holds_permit (p : phase) : bool :=
  match p with InFlight _ | Backoff _ => true | _ => false end.

Definition is_done (p : phase) : bool :=
  match p with Done _ => true | _ => false end.

Definition start (max_concurrency : Z) : dispatcher :=
  {| permits := max_concurrency; tasks := replicate (length texts) Queued |}.

Definition set_phase (i : nat) (p : phase) (s : dispatcher) : dispatcher :=
  {| permits := permits s; tasks := <[i := p]> (tasks s) |}.

(** Leaving [async with semaphore]: the permit goes back. *)
Definition release (i : nat) (result : option str) (s : dispatcher) : dispatcher :=
  {| permits := permits s + 1;
     tasks := <[i := Done (complete i result)]> (tasks s) |}.

(** The next step of task [i], if it has one: to enter the semaphore
    when a permit is free and send the first request, to receive the
    answer to a request (and return, sleep or give up as
    [translate_text] does), to wake from a sleep and send again. *)
Definition step_task (i : nat) (s : dispatcher) : option dispatcher :=
  text ← texts !! i;
  p ← tasks s !! i;
  match p with
  | Queued =>
      if 0 <? permits s
      then Some {| permits := permits s - 1;
                   tasks := <[i := InFlight 0]> (tasks s) |}
      else None
  | InFlight retry_count =>
      match responses env target_language i retry_count with
      | Content content => Some (release i (Some (strip content)) s)
      | TimeoutError | Error =>
          if retry_count + 1 <=? default_max_retries
          then Some (set_phase i (Backoff (retry_count + 1)) s)
          else Some (release i (Some text) s)
      end
  | Backoff retry_count => Some (set_phase i (InFlight retry_count) s)
  | Done _ => None
  end.

(** The work of a unit that fails may do so at any moment inside the
    semaphore, not only where it would return: the exception leaves
    [async with semaphore], which gives the permit back, and [gather]
    collects it. *)
Definition abort_task (i : nat) (s : dispatcher) : option dispatcher :=
  _ ← texts !! i;
  p ← tasks s !! i;
  if fails env i && holds_permit p
  then Some {| permits := permits s + 1;
               tasks := <[i := Done Raised]> (tasks s) |}
  else None.

(** One step of the batch: some task takes its next step, or fails. *)
Definition step (s s' : dispatcher) : Prop :=
  exists i, step_task i s = Some s' \/ abort_task i s = Some s'.

(** The states a batch started with [max_concurrency] can be in. *)
Definition reachable (max_concurrency : Z) (s : dispatcher) : Prop :=
  rtc step (start max_concurrency) s.

(** The tasks in the order of a schedule, each taking its next step if
    it has one. *)
Definition run_schedule (schedule : list nat) (s : dispatcher) : dispatcher :=
  foldl (fun s i => default s (step_task i s)) s schedule.

(** The number of requests in flight. *)
Definition in_flight (s : dispatcher) : nat :=
  length (filter (fun p => is_in_flight p = true) (tasks s)).

(** The number of tasks inside [async with semaphore]. *)
Definition inside (s : dispatcher) : nat :=
  length (filter (fun p => holds_permit p = true) (tasks s)).

Definition all_done (s : dispatcher) : Prop :=
  Forall (fun p => is_done p = true) (tasks s).

(** What [gather] returns once every task is done. *)
Definition gathered (s : dispatcher) : option (list task_result) :=
  mapM (fun p => match p with Done r => Some r | _ => None end) (tasks s).

(** The steps task phase [p] can still take, at most. *)
Definition phase_weight (p : phase) : nat :=
  match p with
  | Queued => S (S (Z.to_nat (2 * default_max_retries)))
  | InFlight k => S (Z.to_nat (2 * (default_max_retries - k)))
  | Backoff k => S (S (Z.to_nat (2 * (default_max_retries - k))))
  | Done _ => O
  end.

Definition weight (s : dispatcher) : nat :=
  sum_list_with phase_weight (tasks s).

(** The steps of [step_task] and [abort_task], read off their branches:
    task [i], working on [text], goes from one phase to the next and
    changes the semaphore's counter by [d]. *)
Inductive transition (i : nat) (text : str) : phase -> Z -> phase -> Prop :=
  | enter :
      transition i text Queued (-1) (InFlight 0)
  | retry k :
      failed (responses env target_language i k) = true ->
      k + 1 <= default_max_retries ->
      transition i text (InFlight k) 0 (Backoff (k + 1))
  | wake k :
      transition i text (Backoff k) 0 (InFlight k)
  | answer k content :
      responses env target_language i k = Content content ->
      transition i text (InFlight k) 1
        (Done (complete i (Some (strip content))))
  | exhaust k :
      failed (responses env target_language i k) = true ->
      default_max_retries < k + 1 ->
      transition i text (InFlight k) 1 (Done (complete i (Some text)))
  | abort p :
      fails env i = true ->
      holds_permit p = true ->
      transition i text p 1 (Done Raised).

(** What holds of the phase of task [i], working on [text], at every
    moment: its loop is at a turn from which [translate_text] returns
    what it returns from the start; once done, its result is that of
    the whole coroutine. *)
Definition phase_ok (i : nat) (text : str) (p : phase) : Prop :=
  match p with
  | Queued => True
  | InFlight k | Backoff k =>
      0 <= k <= default_max_retries /\
      (translate_text_loop text (responses env target_language i)
         default_max_retries float_2_0 k).1
      = (translate_text text (responses env target_language i)
           default_max_retries float_2_0).1
  | Done r => r = translate_with_semaphore text i
  end.

(** What holds of the dispatcher at every moment of a batch started
    with [max_concurrency]. *)
Record invariant (max_concurrency : Z) (s : dispatcher) : Prop := {
  inv_length : length (tasks s) = length texts;
  inv_permits : 0 <= permits s;
  inv_balance : permits s + Z.of_nat (inside s) = max_concurrency;
  inv_phases : forall i text p,
    texts !! i = Some text -> tasks s !! i = Some p -> phase_ok i text p
}.
End translate_batch.

(* ===================================================================== *)
(** ** main.py: subtitle entries, parser and writer                        *)
(* ===================================================================== *)

(** The dataclass [SubtitleEntry]; [translated_content] defaults to the
    empty string. *)
Record SubtitleEntry := {
  index : Z;
  start_time : str;
  end_time : str;
  content : str;
  translated_content : str
}.

Definition set_index (i : Z) (entry : SubtitleEntry) : SubtitleEntry :=
  {| index := i; start_time := start_time entry; end_time := end_time entry;
     content := content entry;
     translated_content := translated_content entry |}.

Definition set_translated_content (t : str) (entry : SubtitleEntry)
    : SubtitleEntry :=
  {| index := index entry; start_time := start_time entry;
     end_time := end_time entry; content := content entry;
     translated_content := t |}.

Section parser.
Context {R : PyRuntime}.

(** [parse_time(time_str)]; [None] when a conversion raises. *)
Definition parse_time (time_str : str) : option (str * datetime) :=
  let time_str := strip time_str in
  let time_parts :=
    split (replace_char 44%N 46%N time_str) (py ":") in
  part0 ← time_parts !! 0%nat;
  hours ← py_int part0;
  part1 ← time_parts !! 1%nat;
  minutes ← py_int part1;
  part2 ← time_parts !! 2%nat;
  seconds ← py_float part2;
  total_seconds ← int_add_float (hours * 3600 + minutes * 60) seconds;
  time_obj ← fromtimestamp total_seconds;
  Some (time_str, time_obj).

(** The body of the loop over the blocks of [parse_file]: [Some None]
    is [continue], [None] an exception. The entry is built without a
    [translated_content], which therefore is the default. *)
Definition parse_block (block : str)
    : option (option (datetime * SubtitleEntry)) :=
  let lines := split (strip block) [LF] in
  if (length lines <? 3)%nat then Some None
  else
    line0 ← lines !! 0%nat;
    index ← py_int line0;
    time_line ← lines !! 1%nat;
    match split time_line (py " --> ") with
    | [start_time_str; end_time_str] =>
        '(start_time_str, start_time_obj) ← parse_time start_time_str;
        '(end_time_str, _) ← parse_time end_time_str;
        let text := join [LF] (drop 2 lines) in
        Some (Some (start_time_obj,
                    {| index := index;
                       start_time := start_time_str;
                       end_time := end_time_str;
                       content := text;
                       translated_content := [] |}))
    | _ => None
    end.

(** The loop over the blocks, appending to [self.entries]. *)
Fixpoint parse_blocks (subtitle_blocks : list str)
    : option (list (datetime * SubtitleEntry)) :=
  match subtitle_blocks with
  | [] => Some []
  | block :: rest =>
      parsed ← parse_block block;
      entries ← parse_blocks rest;
      Some (match parsed with
            | Some entry => entry :: entries
            | None => entries
            end)
  end.

(** [parse_file] on the text read from the file: the blocks, the sort
    by start time and the renumbering from 1. *)
Definition parse_content (text : str) : option (list SubtitleEntry) :=
  let subtitle_blocks := split (strip text) [LF; LF] in
  entries ← parse_blocks subtitle_blocks;
  let entries := sorted datetime_lt fst entries in
  Some (imap (fun i e => set_index (Z.of_nat i + 1) (snd e)) entries).

(** [parse_file(file_path)] on the files [fs]; a missing file is
    FileNotFoundError. *)
Definition parse_file (fs : files) (file_path : str)
    : option (list SubtitleEntry) :=
  text ← read_text fs file_path;
  parse_content text.
End parser.

(** What [save_translated_srt] writes for one entry when
    [separate_languages] is false. *)
Definition write_entry (entry : SubtitleEntry) : str :=
  str_of_int (index entry) ++ [LF]
  ++ start_time entry ++ py " --> " ++ end_time entry ++ [LF]
  ++ content entry ++ [LF]
  ++ (if truthy (translated_content entry)
      then translated_content entry ++ [LF] else [])
  ++ [LF].

(** [save_translated_srt(output_path)] with [separate_languages] false:
    the merged file. When [open] raises nothing has been written. *)
Definition save_translated_srt {R : PyRuntime} (entries : list SubtitleEntry)
    (output_path : str) (fs : files) : saving :=
  match write_text output_path (concat (map write_entry entries)) fs with
  | Some fs' => Saved fs'
  | None => Failed fs
  end.

(* ===================================================================== *)
(** ** main.py: translate_entries                                          *)
(* ===================================================================== *)

(** The loop that fills [history_map] from the entries of the history
    parser: only an entry with a translation is recorded, a later entry
    overwrites an earlier one of the same key. *)
Definition build_history_map (entries : list SubtitleEntry) : gmap str str :=
  foldl (fun history_map entry =>
           if truthy (translated_content entry)
           then <[strip (content entry) := strip (translated_content entry)]>
                  history_map
           else history_map)
        ∅ entries.

(** [history_map and clean_content in history_map], then
    [history_map[clean_content]]. *)
Definition history_lookup (history_map : gmap str str) (clean_content : str)
    : option str :=
  if decide (history_map = ∅) then None else history_map !! clean_content.

(** The loop "prepare texts to translate": the entries after it, and
    [texts_to_translate]. *)
Fixpoint prepare_texts (history_map : gmap str str)
    (entries : list SubtitleEntry) : list SubtitleEntry * list str :=
  match entries with
  | [] => ([], [])
  | entry :: rest =>
      let clean_content := strip (content entry) in
      let '(rest', texts_to_translate) := prepare_texts history_map rest in
      match history_lookup history_map clean_content with
      | Some translation =>
          (set_translated_content translation entry :: rest',
           texts_to_translate)
      | None => (entry :: rest', content entry :: texts_to_translate)
      end
  end.

(** The loop "update translation results", entered with the counter [j];
    [None] is the IndexError of [translated_texts[j]]. *)
Fixpoint update_results (translated_texts : list str) (j : nat)
    (entries : list SubtitleEntry) : option (list SubtitleEntry) :=
  match entries with
  | [] => Some []
  | entry :: rest =>
      if truthy (translated_content entry)
      then rest' ← update_results translated_texts j rest;
           Some (entry :: rest')
      else text ← translated_texts !! j;
           rest' ← update_results translated_texts (S j) rest;
           Some (set_translated_content text entry :: rest')
  end.

(** What a call of [translate_entries] leaves behind: the entries of the
    parser, the list stored in [self.translations[target_language]], and
    the batches handed to [translator.translate_batch]. *)
Record translated_entries := {
  entries_after : list SubtitleEntry;
  stored : list str;
  dispatched : list (list str)
}.

Section translate_entries.
Context {R : PyRuntime}.
(** [translator.translate_batch(texts, target_language,
    max_concurrency)]. *)
Variable translator : list str -> str -> Z -> run (list str).

(** The first part of [translate_entries]: [history_map] when the loop
    over the entries starts. Any exception while the history file is
    read leaves the map empty. *)
Definition load_history (fs : files) (use_history : bool)
    (history_file : option str) : gmap str str :=
  match history_file with
  | Some path =>
      if use_history && truthy path
      then match parse_file fs path with
           | Some entries => build_history_map entries
           | None => ∅
           end
      else ∅
  | None => ∅
  end.

(** The rest of [translate_entries], from [history_map] on. *)
Definition translate_with_history (history_map : gmap str str)
    (entries : list SubtitleEntry) (target_language : str)
    (max_concurrency : Z) : run translated_entries :=
  let '(entries, texts_to_translate) := prepare_texts history_map entries in
  if bool_decide (texts_to_translate ≠ [])
  then match translator texts_to_translate target_language max_concurrency with
       | Returns translated_texts =>
           match update_results translated_texts O entries with
           | Some entries =>
               Returns {| entries_after := entries;
                          stored := translated_content <$> entries;
                          dispatched := [texts_to_translate] |}
           | None => Raises
           end
       | Raises => Raises
       | Blocks => Blocks
       end
  else Returns {| entries_after := entries;
                  stored := translated_content <$> entries;
                  dispatched := [] |}.

(** [translate_entries(translator, target_language, max_concurrency,
    use_history, history_file)] on a parser whose entries are
    [entries]. *)
Definition translate_entries (fs : files)
    (entries : list SubtitleEntry) (target_language : str)
    (max_concurrency : Z) (use_history : bool)
    (history_file : option str) : run translated_entries :=
  translate_with_history (load_history fs use_history history_file)
    entries target_language max_concurrency.
End translate_entries.

(* ===================================================================== *)
(** ** Notions used in the statements                                      *)
(* ===================================================================== *)

(** The outcome of unit [index] of a batch, told without the dispatcher:
    what [translate_text] makes of the text with the answers this unit
    gets, or the text itself when the work of the unit fails. *)
Definition outcome {R : PyRuntime} (env : environment) (target_language : str)
    (index : nat) (text : str) : option str :=
  if fails env index then Some text
  else (translate_text text (responses env target_language index)
          default_max_retries float_2_0).1.

(** The same world, but the work of unit [i] does not fail. *)
Definition without_failure (i : nat) (env : environment) : environment :=
  {| responses := responses env;
     fails := fun j => if bool_decide (j = i) then false else fails env j |}.

(** The same world, but the work of unit [i] fails. *)
Definition with_failure (i : nat) (env : environment) : environment :=
  {| responses := responses env;
     fails := fun j => if bool_decide (j = i) then true else fails env j |}.

(** A list whose keys never go down from one element to the next. *)
Fixpoint ascending {A} (key : A -> Z) (l : list A) : Prop :=
  match l with
  | [] => True
  | x :: l' =>
      match l' with
      | [] => True
      | y :: _ => key x <= key y
      end /\ ascending key l'
  end.

(** What the loop "prepare texts to translate" does to one entry. *)
Definition prepare_entry (history_map : gmap str str) (entry : SubtitleEntry)
    : SubtitleEntry :=
  match history_lookup history_map (strip (content entry)) with
  | Some translation => set_translated_content translation entry
  | None => entry
  end.

(** The entries that the history does not know. *)
Definition misses (history_map : gmap str str) (entries : list SubtitleEntry)
    : list SubtitleEntry :=
  filter (fun entry => history_lookup history_map (strip (content entry)) = None)
         entries.

(** The entries that still wait for a translation. *)
Definition untranslated (entries : list SubtitleEntry) : list SubtitleEntry :=
  filter (fun entry => truthy (translated_content entry) = false) entries.

(** The entries of a history that carry a translation for the key [k]. *)
Definition recorded (k : str) (entries : list SubtitleEntry)
    : list SubtitleEntry :=
  filter (fun entry => truthy (translated_content entry) = true
                       /\ strip (content entry) = k)
         entries.

(** The round trip through the history file: parse [input_path] and
    translate it without history, save the merged file at [history_path],
    then parse the same input again and translate it with that file as
    history. The value is the outcome of the second translation. *)
Definition round_trip {R : PyRuntime}
    (translator : list str -> str -> Z -> run (list str))
    (fs : files) (input_path history_path : str)
    (target_language : str) (max_concurrency : Z) : option (run translated_entries) :=
  entries ← parse_file fs input_path;
  match translate_entries translator fs entries target_language
          max_concurrency false None with
  | Returns first =>
      match save_translated_srt (entries_after first) history_path fs with
      | Saved fs' =>
          entries' ← parse_file fs' input_path;
          Some (translate_entries translator fs' entries' target_language
                  max_concurrency true (Some history_path))
      | Failed _ => None
      end
  | _ => None
  end.

(* ===================================================================== *)
(** ** Fixtures for concrete runs                                          *)
(* ===================================================================== *)

(** A runtime for files whose numbers are plain decimal numerals: [int]
    and [float] read ASCII digits (and refuse the other spellings that
    Python accepts), floats are exact rationals, and a [datetime] is the
    number of seconds it was made from. Every part of a path names a
    directory of its own, and every name can be written. *)
Definition digit_value (c : N) : option Z :=
  if ((48 <=? c) && (c <=? 57))%N then Some (Z.of_N c - 48) else None.

Fixpoint digits_value (acc : Z) (s : str) : option Z :=
  match s with
  | [] => Some acc
  | c :: s' => d ← digit_value c; digits_value (10 * acc + d) s'
  end.

Definition decimal_int (s : str) : option Z :=
  match strip s with
  | [] => None
  | digits => digits_value 0 digits
  end.

Definition decimal_float (s : str) : option Q :=
  match split (strip s) (py ".") with
  | [whole] => n ← decimal_int whole; Some (inject_Z n)
  | [whole; fraction] =>
      n ← decimal_int (whole ++ fraction);
      Some (Qmake n (Z.to_pos (10 ^ Z.of_nat (length fraction))))
  | _ => None
  end.

Definition decimal_runtime : PyRuntime := {|
  pyfloat := Q;
  float_2_0 := inject_Z 2;
  float_mul_int := fun x n => Qred (x * inject_Z n);
  int_add_float := fun n x => Some (Qred (inject_Z n + x));
  py_int := decimal_int;
  py_float := decimal_float;
  datetime := Q;
  fromtimestamp := Some;
  datetime_lt := fun a b => negb (Qle_bool b a);
  directory := Some;
  writable := fun _ _ => true
|}.

(** A translator that answers from a word list and repeats what it does
    not know. *)
Definition dictionary_translator (words : list (str * str))
    (texts : list str) (target_language : str) (max_concurrency : Z)
    : run (list str) :=
  Returns (map (fun text =>
                  default text (snd <$> find (fun w => bool_decide (fst w = text)) words))
               texts).

Definition french : list (str * str) :=
  [(py "Hello", py "Bonjour"); (py "World", py "Monde")].

(** A service that answers every request of unit [i] with the [i]-th
    string of [answers], and fails nowhere. *)
Definition answering (answers : list str) : environment :=
  {| responses := fun _ i _ =>
       match answers !! i with Some a => Content a | None => Error end;
     fails := fun _ => false |}.

(** The file of a name in the working directory. *)
Definition in_cwd (name : string) : file := ([], py name).

(** The lines of a file, each ended by a line feed. *)
Definition file_of_lines (lines : list string) : str :=
  concat (map (fun l => py l ++ [LF]) lines).

(** An entry as [parse_file] builds it, and one with a translation. *)
Definition entry_of (i : Z) (text translation : string) : SubtitleEntry :=
  {| index := i;
     start_time := py "00:00:01,000"; end_time := py "00:00:02,000";
     content := py text; translated_content := py translation |}.

(** A subtitle file of two blocks. *)
Definition hello_world : str :=
  file_of_lines ["1"; "00:00:01,000 --> 00:00:02,000"; "Hello"; "";
                 "2"; "00:00:03,000 --> 00:00:04,500"; "World"]%string.

(** A history file in which the same text comes twice. *)
Definition hello_twice : str :=
  file_of_lines ["1"; "00:00:01,000 --> 00:00:02,000"; "Hello"; "";
                 "2"; "00:00:03,000 --> 00:00:04,500"; "Hello"]%string.

(* ===================================================================== *)
(** ** endpoint.py: the constructor of the translator                      *)
(* ===================================================================== *)

(** [s.rstrip(c)] for a one-character [c]. *)
Fixpoint lstrip_char (c : N) (s : str) : str :=
  match s with
  | [] => []
  | a :: s' => if (a =? c)%N then lstrip_char c s' else s
  end.

Definition rstrip_char (c : N) (s : str) : str :=
  rev (lstrip_char c (rev s)).

(** The attributes of an [OpenAITranslator] that a request depends on. *)
Record OpenAITranslator := {
  api_key : str;
  api_base : str;
  headers : gmap str str
}.

(** [api_key or os.getenv("OPENAI_API_KEY")]: the argument when it is a
    non-empty string, else what the environment has (or [None]). *)
Definition key_or_environment (key : option str) (environ : gmap str str)
    : option str :=
  match key with
  | Some k => if truthy k then Some k else environ !! py "OPENAI_API_KEY"
  | None => environ !! py "OPENAI_API_KEY"
  end.

(** [OpenAITranslator(api_key, api_base)] in the environment [environ];
    [None] is the ValueError raised without a key. *)
Definition OpenAITranslator_init (environ : gmap str str)
    (key : option str) (base : str) : option OpenAITranslator :=
  match key_or_environment key environ with
  | Some k =>
      if truthy k
      then Some {| api_key := k;
                   api_base := rstrip_char 47%N base;
                   headers :=
                     {[ py "Authorization" := py "Bearer " ++ k;
                        py "Content-Type" := py "application/json" ]} |}
      else None
  | None => None
  end.

(** The [url] of [translate_text]. *)
Definition completions_url (translator : OpenAITranslator) : str :=
  api_base translator ++ py "/chat/completions".

(* ===================================================================== *)
(** ** main.py: the separate files, split_translated_file, async_main      *)
(* ===================================================================== *)

(** What is behind the first full stop of [r], if it has one. *)
Fixpoint after_full_stop (r : str) : option str :=
  match r with
  | [] => None
  | c :: r' => if (c =? 46)%N then Some r' else after_full_stop r'
  end.

(** [s.rsplit('.', 1)[0]]: what comes before the last full stop, or all
    of [s] when it has none. *)
Definition rsplit_dot (s : str) : str :=
  match after_full_stop (rev s) with
  | Some r => rev r
  | None => s
  end.

(** What [save_translated_srt] writes for one entry into the file of
    the originals and into the file of the translations. *)
Definition write_original (entry : SubtitleEntry) : str :=
  str_of_int (index entry) ++ [LF]
  ++ start_time entry ++ py " --> " ++ end_time entry ++ [LF]
  ++ content entry ++ [LF; LF].

Definition write_translation (entry : SubtitleEntry) : str :=
  str_of_int (index entry) ++ [LF]
  ++ start_time entry ++ py " --> " ++ end_time entry ++ [LF]
  ++ translated_content entry ++ [LF; LF].

(** [f"{target_language}"]: a missing argument is printed as [None]. *)
Definition format_language (target_language : option str) : str :=
  match target_language with
  | Some l => l
  | None => py "None"
  end.

Definition original_path (source_language output_path : str) : str :=
  let lang_suffix :=
    if truthy source_language then py "_" ++ source_language else [] in
  rsplit_dot output_path ++ lang_suffix ++ py "_original.srt".

Definition translated_path (output_path : str) (target_language : option str)
    : str :=
  rsplit_dot output_path ++ py "_" ++ format_language target_language
  ++ py ".srt".

(** [save_translated_srt(output_path, True, target_language)] on a
    parser with [source_language] and [entries]: the branch of the
    separate files. *)
Definition save_separately {R : PyRuntime} (source_language : str)
    (entries : list SubtitleEntry) (output_path : str)
    (target_language : option str) (fs : files) : saving :=
  match write_text (original_path source_language output_path)
          (concat (write_original <$> entries)) fs with
  | None => Failed fs
  | Some fs =>
      if existsb (fun entry => truthy (translated_content entry)) entries
      then match write_text (translated_path output_path target_language)
                   (concat (write_translation
                              <$> filter (fun entry =>
                                            truthy (translated_content entry)
                                            = true)
                                         entries)) fs with
           | Some fs' => Saved fs'
           | None => Failed fs
           end
      else Saved fs
  end.


Section split_translated_file.
Context {R : PyRuntime}.

(** The body of the loop of [split_translated_file]: a block of fewer
    than four lines is passed over; the third line is the original, the
    fourth the translation, and what follows is dropped. *)
Definition split_block (block : str) : option (option SubtitleEntry) :=
  let lines := split (strip block) [LF] in
  if (length lines <? 4)%nat then Some None
  else
    line0 ← lines !! 0%nat;
    index ← py_int line0;
    time_line ← lines !! 1%nat;
    match split time_line (py " --> ") with
    | [start_time; end_time] =>
        content ← lines !! 2%nat;
        let translated_content := default [] (lines !! 3%nat) in
        Some (Some {| index := index;
                      start_time := strip start_time;
                      end_time := strip end_time;
                      content := content;
                      translated_content := translated_content |})
    | _ => None
    end.



End split_translated_file.

(** The arguments of the command line, as [async_main] reads them. *)
Module Namespace.
Record t := {
  input_file : str;
  source_language : str;
  target_language : str;
  api_key : option str;
  api_base : str;
  max_concurrency : Z;
  sort_only : bool;
  separate_output : bool;
  split_file : bool;
  use_history : bool;
  history_file : option str
}.
End Namespace.

Section async_main.
Context {R : PyRuntime}.
(** The environment variables of the process. *)
Variable environ : gmap str str.
(** [translator.translate_batch] of the translator built from the
    arguments. *)
Variable translate_batch_of :
  OpenAITranslator -> list str -> str -> Z -> run (list str).

End async_main.

(* ===================================================================== *)
(** ** Further notions used in the statements                              *)
(* ===================================================================== *)

(** The events of [n] failed attempts in a row, the first of them made
    with [retry_count = k]: each request is followed by its sleep. *)
Fixpoint backoff_trace {R : PyRuntime} (retry_delay : pyfloat) (n : nat)
    (k : Z) : list event :=
  match n with
  | O => []
  | S n' =>
      Post k :: Sleep (float_mul_int retry_delay (k + 1))
        :: backoff_trace retry_delay n' (k + 1)
  end.

(** Two entries that differ at most in their translation. *)
Definition same_subtitle (e e' : SubtitleEntry) : Prop :=
  index e = index e' /\ start_time e = start_time e' /\
  end_time e = end_time e' /\ content e = content e'.

(** The entry as the file of the translations shows it: the translation
    in the place of the text. *)
Definition translation_as_content (entry : SubtitleEntry) : SubtitleEntry :=
  {| index := index entry; start_time := start_time entry;
     end_time := end_time entry; content := translated_content entry;
     translated_content := [] |}.

(** A list no element of which is under its predecessor, for the [<]
    of the keys. *)
Fixpoint in_order {A K} (lt : K -> K -> bool) (key : A -> K) (l : list A)
    : Prop :=
  match l with
  | [] => True
  | x :: l' =>
      match l' with
      | [] => True
      | y :: _ => lt (key y) (key x) = false
      end /\ in_order lt key l'
  end.

(** The entry without its translation. *)
Definition without_translation (entry : SubtitleEntry) : SubtitleEntry :=
  set_translated_content [] entry.


(** Whether an event is a request. *)
Definition is_request {R : PyRuntime} (e : event) : bool :=
  match e with
  | Post _ => true
  | Sleep _ => false
  end.

(* ===================================================================== *)
(** * Properties                                                           *)
(* ===================================================================== *)

(** ** The translation client *)

Section translate_text_facts.
Context {R : PyRuntime}.
Variable text : str.
Variable client : Z -> response.
Variable max_retries : Z.
Variable retry_delay : pyfloat.

Local Abbreviation loop := (translate_text_loop text client max_retries retry_delay).

(** One turn of the [while] loop. *)
Lemma translate_text_loop_body retry_count :
  loop retry_count =
  if retry_count <=? max_retries then
    match client retry_count with
    | Content content => (Some (strip content), [Post retry_count])
    | _ =>
        if retry_count + 1 <=? max_retries then
          let '(result, events) := loop (retry_count + 1) in
          (result,
           Post retry_count
             :: Sleep (float_mul_int retry_delay (retry_count + 1))
             :: events)
        else (Some text, [Post retry_count])
    end
  else (None, []).
Proof.
  funelim (translate_text_loop text client max_retries retry_delay retry_count).
  all: repeat match goal with
         | H : (_ <=? _) = _ |- _ => rewrite H
         | H : client _ = _ |- _ => rewrite H
         end; reflexivity.
Qed.

(** A turn that fails with a retry left sleeps and goes round again. *)
Lemma translate_text_loop_retry retry_count :
  retry_count + 1 <= max_retries ->
  failed (client retry_count) = true ->
  loop retry_count =
  ((loop (retry_count + 1)).1,
   Post retry_count
     :: Sleep (float_mul_int retry_delay (retry_count + 1))
     :: (loop (retry_count + 1)).2).
Proof.
  intros Hle Hfail. rewrite (translate_text_loop_body retry_count).
  assert ((retry_count <=? max_retries) = true) as -> by lia.
  assert ((retry_count + 1 <=? max_retries) = true) as -> by lia.
  destruct (client retry_count); try discriminate;
    destruct (loop (retry_count + 1)); reflexivity.
Qed.

(** A turn that fails with no retry left gives the text back. *)
Lemma translate_text_loop_exhausted retry_count :
  retry_count = max_retries ->
  failed (client retry_count) = true ->
  loop retry_count = (Some text, [Post retry_count]).
Proof.
  intros -> Hfail. rewrite translate_text_loop_body.
  assert ((max_retries <=? max_retries) = true) as -> by lia.
  assert ((max_retries + 1 <=? max_retries) = false) as -> by lia.
  destruct (client max_retries); try discriminate; reflexivity.
Qed.

(** A turn whose request is answered returns the trimmed answer. *)
Lemma translate_text_loop_answer retry_count content :
  retry_count <= max_retries ->
  client retry_count = Content content ->
  loop retry_count = (Some (strip content), [Post retry_count]).
Proof.
  intros Hle Hc. rewrite translate_text_loop_body, Hc.
  assert ((retry_count <=? max_retries) = true) as -> by lia. reflexivity.
Qed.

(** Every turn starts with a request. *)
Lemma translate_text_loop_first_event retry_count :
  retry_count <= max_retries ->
  (loop retry_count).2 !! O = Some (Post retry_count).
Proof.
  intros Hle. rewrite translate_text_loop_body.
  assert ((retry_count <=? max_retries) = true) as -> by lia.
  destruct (client retry_count); try reflexivity;
    destruct (retry_count + 1 <=? max_retries); try reflexivity;
    destruct (loop (retry_count + 1)); reflexivity.
Qed.

(** Entered with a turn left, the loop returns a string, and it is the
    text itself when no request from there on is answered. *)
Lemma translate_text_loop_returns (n : nat) retry_count :
  retry_count <= max_retries ->
  Z.to_nat (max_retries - retry_count) = n ->
  exists result,
    (loop retry_count).1 = Some result /\
    ((forall k, retry_count <= k <= max_retries -> failed (client k) = true) ->
     result = text).
Proof.
  revert retry_count. induction n as [|n IH]; intros retry_count Hle Hn.
  - assert (retry_count = max_retries) as Heq by lia.
    destruct (client retry_count) as [c| |] eqn:Hc.
    + rewrite (translate_text_loop_answer _ c Hle Hc). eexists; split; [done|].
      intros Hall. specialize (Hall retry_count). rewrite Hc in Hall.
      discriminate Hall. lia.
    + rewrite translate_text_loop_exhausted by (rewrite ?Hc; done). eauto.
    + rewrite translate_text_loop_exhausted by (rewrite ?Hc; done). eauto.
  - destruct (failed (client retry_count)) eqn:Hfail.
    + rewrite translate_text_loop_retry by (done || lia). simpl.
      destruct (IH (retry_count + 1)) as (result & Hres & Htext); [lia..|].
      exists result. split; [done|]. intros Hall. apply Htext.
      intros k Hk. apply Hall. lia.
    + destruct (client retry_count) as [c| |] eqn:Hc; try discriminate.
      rewrite (translate_text_loop_answer _ c Hle Hc). eexists; split; [done|].
      intros Hall. specialize (Hall retry_count). rewrite Hc in Hall.
      discriminate Hall. lia.
Qed.

(** After [j - retry_count] failed turns with a retry left, the loop has
    slept [retry_delay * j] just before the request of turn [j]. *)
Lemma translate_text_loop_backoff (n : nat) retry_count j :
  retry_count < j <= max_retries ->
  Z.to_nat (j - retry_count) = S n ->
  (forall k, retry_count <= k < j -> failed (client k) = true) ->
  (loop retry_count).2 !! Z.to_nat (2 * (j - retry_count) - 1)
    = Some (Sleep (float_mul_int retry_delay j)) /\
  (loop retry_count).2 !! Z.to_nat (2 * (j - retry_count))
    = Some (Post j).
Proof.
  revert retry_count. induction n as [|n IH]; intros retry_count Hj Hn Hfail.
  - assert (j = retry_count + 1) as -> by lia.
    rewrite translate_text_loop_retry by (lia || apply Hfail; lia).
    replace (2 * (retry_count + 1 - retry_count) - 1) with 1 by lia.
    replace (2 * (retry_count + 1 - retry_count)) with 2 by lia.
    split; [reflexivity|].
    change (Z.to_nat 2) with 2%nat. simpl.
    apply translate_text_loop_first_event. lia.
  - rewrite translate_text_loop_retry by (lia || apply Hfail; lia).
    destruct (IH (retry_count + 1)) as [Hsleep Hpost];
      [lia | lia | intros k Hk; apply Hfail; lia |].
    replace (Z.to_nat (2 * (j - retry_count) - 1))
      with (S (S (Z.to_nat (2 * (j - (retry_count + 1)) - 1)))) by lia.
    replace (Z.to_nat (2 * (j - retry_count)))
      with (S (S (Z.to_nat (2 * (j - (retry_count + 1)))))) by lia.
    simpl. split; assumption.
Qed.
End translate_text_facts.

(** With the default of three retries the loop is entered, so that
    [translate_text] returns a string. *)
Lemma translate_text_default_returns {R : PyRuntime} text client retry_delay :
  exists result,
    (translate_text text client default_max_retries retry_delay).1 = Some result.
Proof.
  destruct (translate_text_loop_returns text client default_max_retries
              retry_delay 3 0) as (result & Hres & _);
    [unfold default_max_retries; lia | reflexivity |].
  exists result. exact Hres.
Qed.

(** ** Sorting a list that is in order *)

Section sorted_facts.
Context {A : Type} (key : A -> Z).

(** Sorting a list that is in order changes nothing. *)
Lemma sorted_ascending l :
  ascending key l -> sorted Z.ltb key l = l.
Proof.
  induction l as [|x l IH]; intros Hl; [reflexivity|].
  destruct Hl as [Hx Hl]. unfold sorted in *. simpl. rewrite (IH Hl).
  destruct l as [|y l']; [reflexivity|]. simpl.
  assert ((key y <? key x) = false) as -> by lia. reflexivity.
Qed.

(** Sorting keeps the length. *)
Lemma length_insert_sorted (lt : Z -> Z -> bool) x (l : list A) :
  length (insert_sorted lt key x l) = S (length l).
Proof.
  induction l as [|y l IH]; simpl; [reflexivity|].
  destruct (lt (key y) (key x)); simpl; congruence.
Qed.

Lemma length_sorted (lt : Z -> Z -> bool) (l : list A) :
  length (sorted lt key l) = length l.
Proof.
  induction l as [|x l IH]; simpl; [reflexivity|].
  unfold sorted in *. simpl. rewrite length_insert_sorted. congruence.
Qed.
End sorted_facts.

(** ** The dispatcher, from the results of its tasks *)

Section translate_batch_facts.
Context {R : PyRuntime}.
Variable env : environment.
Variable texts : list str.
Variable target_language : str.

(** A task raises when its work fails, and otherwise returns its own
    index with the outcome of its text. *)
Lemma translate_with_semaphore_outcome text i :
  translate_with_semaphore env target_language text i =
  if fails env i then Raised
  else Returned (Z.of_nat i) (outcome env target_language i text).
Proof.
  unfold translate_with_semaphore, complete, outcome.
  destruct (fails env i); reflexivity.
Qed.

Lemma outcome_is_Some i text :
  is_Some (outcome env target_language i text).
Proof.
  unfold outcome. destruct (fails env i); [eauto|].
  destruct (translate_text_default_returns text
              (responses env target_language i) float_2_0) as [r Hr].
  rewrite Hr. eauto.
Qed.

Lemma length_gather : length (gather env texts target_language) = length texts.
Proof. unfold gather. apply length_imap. Qed.

Lemma lookup_gather i text :
  texts !! i = Some text ->
  gather env texts target_language !! i
    = Some (translate_with_semaphore env target_language text i).
Proof. intros H. unfold gather. rewrite list_lookup_imap, H. reflexivity. Qed.

(** The loop over the results of the tasks from position [i] on. *)
Lemma process_results_tasks ts : forall i,
  drop i texts = ts ->
  process_results texts i
    (imap (fun j text => translate_with_semaphore env target_language text (i + j)) ts)
  = Some (imap (fun j text =>
                  (Z.of_nat (i + j), outcome env target_language (i + j) text))
               ts).
Proof.
  induction ts as [|t ts IH]; intros i Hdrop; [reflexivity|].
  assert (texts !! i = Some t) as Hi.
  { rewrite <- (Nat.add_0_r i), <- lookup_drop, Hdrop. reflexivity. }
  assert (drop (S i) texts = ts) as Hdrop'.
  { change (S i) with (1 + i)%nat. rewrite Nat.add_comm, <- drop_drop, Hdrop.
    reflexivity. }
  rewrite !imap_cons. cbn [process_results].
  rewrite (imap_ext _ (fun j text =>
             translate_with_semaphore env target_language text (S i + j)))
    by (intros; simpl; f_equal; lia).
  rewrite (IH (S i) Hdrop'). rewrite Nat.add_0_r.
  rewrite translate_with_semaphore_outcome.
  rewrite (imap_ext (_ ∘ S) (fun j text =>
             (Z.of_nat (S i + j), outcome env target_language (S i + j) text))
             ts)
    by (intros; simpl; repeat f_equal; lia).
  destruct (fails env i) eqn:Hfails; simpl.
  - rewrite Hi. simpl.
    assert (outcome env target_language i t = Some t) as ->
      by (unfold outcome; rewrite Hfails; reflexivity).
    reflexivity.
  - reflexivity.
Qed.

Lemma ascending_indexed {B} (h : nat -> str -> B) ts : forall i,
  ascending fst (imap (fun j text => (Z.of_nat (i + j), h (i + j)%nat text)) ts).
Proof.
  induction ts as [|t ts IH]; intros i; [exact I|].
  rewrite imap_cons. split.
  - destruct ts; [exact I|]. rewrite imap_cons. simpl. lia.
  - rewrite (imap_ext _ (fun j text =>
               (Z.of_nat (S i + j), h (S i + j)%nat text)))
      by (intros; simpl; repeat f_equal; lia).
    apply IH.
Qed.

(** The tuples collected from the tasks of a batch: position and
    outcome of every unit, in the order of the units. *)
Lemma process_results_gather :
  process_results texts 0 (gather env texts target_language)
  = Some (imap (fun i text => (Z.of_nat i, outcome env target_language i text))
               texts).
Proof. exact (process_results_tasks texts 0 eq_refl). Qed.

(** What the batch makes of the results of its tasks. *)
Lemma collect_gather :
  collect texts (gather env texts target_language)
  = Some (imap (outcome env target_language) texts).
Proof.
  unfold collect. rewrite process_results_gather. simpl.
  rewrite sorted_ascending by apply (ascending_indexed _ texts 0).
  f_equal. apply list_eq. intros i.
  rewrite list_lookup_fmap, !list_lookup_imap.
  destruct (texts !! i); reflexivity.
Qed.

(** With a permit to give, the batch returns the outcome of every
    unit, in the order of the units. *)
Lemma translate_batch_returns max_concurrency :
  1 <= max_concurrency ->
  translate_batch env texts target_language max_concurrency
  = Returns (imap (outcome env target_language) texts).
Proof.
  intros HK. unfold translate_batch.
  assert ((max_concurrency <? 0) = false) as -> by lia.
  assert ((max_concurrency =? 0) = false) as -> by lia.
  simpl. rewrite collect_gather. reflexivity.
Qed.
End translate_batch_facts.

(** ** Counting phases *)

Section counting.
Context {A : Type}.

Lemma length_filter_insert (f : A -> bool) (l : list A) : forall i p q,
  l !! i = Some q ->
  (length (filter (fun x => f x = true) (<[i:=p]> l)) + Nat.b2n (f q)
   = length (filter (fun x => f x = true) l) + Nat.b2n (f p))%nat.
Proof.
  induction l as [|x l IH]; intros [|i] p q Hq; try discriminate.
  - injection Hq as ->. change (<[O:=p]> (q :: l)) with (p :: l).
    rewrite !filter_cons. destruct (f p), (f q); simpl; lia.
  - change (<[S i:=p]> (x :: l)) with (x :: <[i:=p]> l).
    rewrite !filter_cons. specialize (IH i p q Hq).
    destruct (f x); simpl; lia.
Qed.

Lemma sum_list_with_insert (g : A -> nat) (l : list A) : forall i p q,
  l !! i = Some q ->
  (sum_list_with g (<[i:=p]> l) + g q = sum_list_with g l + g p)%nat.
Proof.
  induction l as [|x l IH]; intros [|i] p q Hq; try discriminate.
  - injection Hq as ->. change (<[O:=p]> (q :: l)) with (p :: l).
    simpl. lia.
  - change (<[S i:=p]> (x :: l)) with (x :: <[i:=p]> l).
    specialize (IH i p q Hq). simpl. lia.
Qed.

Lemma length_filter_weaker (f g : A -> bool) (l : list A) :
  (forall x, f x = true -> g x = true) ->
  (length (filter (fun x => f x = true) l)
   <= length (filter (fun x => g x = true) l))%nat.
Proof.
  intros Hfg. induction l as [|x l IH]; [reflexivity|].
  rewrite !filter_cons. specialize (Hfg x).
  destruct (f x), (g x); simpl; try lia.
  all: exfalso; specialize (Hfg eq_refl); discriminate.
Qed.

Lemma length_filter_replicate_false (f : A -> bool) (x : A) n :
  f x = false -> length (filter (fun y => f y = true) (replicate n x)) = O.
Proof.
  intros Hx. induction n as [|n IH]; [reflexivity|].
  simpl. rewrite filter_cons, Hx. simpl. exact IH.
Qed.
End counting.

(** ** The tasks of a batch, step by step *)

Section dispatcher_facts.
Context {R : PyRuntime}.
Variable env : environment.
Variable texts : list str.
Variable target_language : str.

Local Abbreviation task_step := (step_task env texts target_language).
Local Abbreviation batch_step := (step env texts target_language).
Local Abbreviation moves := (transition env target_language).
Local Abbreviation ok := (phase_ok env target_language).
Local Abbreviation inv := (invariant env texts target_language).
Local Abbreviation reach := (reachable env texts target_language).

(** A step of task [i] is one of the transitions, taken from the phase
    the task is in; entering needs a free permit. *)
Lemma step_task_transition i s s' :
  task_step i s = Some s' ->
  exists text p d p',
    texts !! i = Some text /\ tasks s !! i = Some p /\
    moves i text p d p' /\
    (p = Queued -> 0 < permits s) /\
    s' = {| permits := permits s + d; tasks := <[i:=p']> (tasks s) |}.
Proof.
  unfold step_task.
  destruct (texts !! i) as [text|] eqn:Ht; [|discriminate].
  destruct (tasks s !! i) as [p|] eqn:Hp; [|discriminate]. simpl.
  intros Hstep. exists text, p.
  destruct p as [|k|k|r].
  - destruct (0 <? permits s) eqn:Hfree; [|discriminate].
    injection Hstep as <-. exists (-1), (InFlight 0).
    repeat split; [constructor | lia].
  - destruct (responses env target_language i k) as [c| |] eqn:Hr.
    + injection Hstep as <-. eexists 1, _.
      repeat split; [eapply answer; eassumption | discriminate].
    + destruct (k + 1 <=? default_max_retries) eqn:Hk;
        injection Hstep as <-.
      * eexists 0, _. unfold set_phase. rewrite Z.add_0_r.
        repeat split; [apply retry; [rewrite Hr; reflexivity | lia]
                      | discriminate].
      * eexists 1, _.
        repeat split; [apply exhaust; [rewrite Hr; reflexivity | lia]
                      | discriminate].
    + destruct (k + 1 <=? default_max_retries) eqn:Hk;
        injection Hstep as <-.
      * eexists 0, _. unfold set_phase. rewrite Z.add_0_r.
        repeat split; [apply retry; [rewrite Hr; reflexivity | lia]
                      | discriminate].
      * eexists 1, _.
        repeat split; [apply exhaust; [rewrite Hr; reflexivity | lia]
                      | discriminate].
  - injection Hstep as <-. eexists 0, _. unfold set_phase.
    rewrite Z.add_0_r. repeat split; [constructor | discriminate].
  - discriminate.
Qed.

Lemma abort_task_transition i s s' :
  abort_task env texts i s = Some s' ->
  exists text p d p',
    texts !! i = Some text /\ tasks s !! i = Some p /\
    moves i text p d p' /\
    (p = Queued -> 0 < permits s) /\
    s' = {| permits := permits s + d; tasks := <[i:=p']> (tasks s) |}.
Proof.
  unfold abort_task.
  destruct (texts !! i) as [text|] eqn:Ht; [|discriminate].
  destruct (tasks s !! i) as [p|] eqn:Hp; [|discriminate]. simpl.
  destruct (fails env i) eqn:Hfails; [|discriminate].
  destruct (holds_permit p) eqn:Hholds; [|discriminate]. simpl.
  intros Hstep. injection Hstep as <-.
  exists text, p, 1, (Done Raised).
  repeat split; [apply abort; assumption|].
  intros ->. discriminate Hholds.
Qed.

(** The steps of a batch are the transitions of its tasks. *)
Lemma step_transition s s' :
  batch_step s s' <->
  exists i text p d p',
    texts !! i = Some text /\ tasks s !! i = Some p /\
    moves i text p d p' /\
    (p = Queued -> 0 < permits s) /\
    s' = {| permits := permits s + d; tasks := <[i:=p']> (tasks s) |}.
Proof.
  split.
  - intros [i [Hstep|Hstep]]; exists i;
      [apply step_task_transition | apply abort_task_transition]; exact Hstep.
  - intros (i & text & p & d & p' & Ht & Hp & Htr & Hfree & ->). exists i.
    destruct Htr as [|k Hfail Hk|k|k c Hc|k Hfail Hk|p Hfails Hholds].
    + left. unfold step_task. rewrite Ht, Hp. simpl.
      assert ((0 <? permits s) = true) as -> by (specialize (Hfree eq_refl); lia).
      reflexivity.
    + left. unfold step_task. rewrite Ht, Hp. simpl.
      assert ((k + 1 <=? default_max_retries) = true) as -> by lia.
      unfold set_phase. rewrite Z.add_0_r.
      destruct (responses env target_language i k); [discriminate|done..].
    + left. unfold step_task. rewrite Ht, Hp. simpl.
      unfold set_phase. rewrite Z.add_0_r. reflexivity.
    + left. unfold step_task. rewrite Ht, Hp. simpl. rewrite Hc. reflexivity.
    + left. unfold step_task. rewrite Ht, Hp. simpl.
      assert ((k + 1 <=? default_max_retries) = false) as -> by lia.
      destruct (responses env target_language i k); [discriminate|done..].
    + right. unfold abort_task. rewrite Ht, Hp. simpl.
      rewrite Hfails, Hholds. reflexivity.
Qed.

Lemma transition_phase_ok i text p d p' :
  moves i text p d p' -> ok i text p -> ok i text p'.
Proof.
  intros Htr Hp.
  destruct Htr as [|k Hfail Hk|k|k c Hc|k Hfail Hk|p Hfails Hholds]; simpl in *.
  - split; [unfold default_max_retries; lia | reflexivity].
  - destruct Hp as [Hrange Hloop]. split; [lia|].
    rewrite <- Hloop, (translate_text_loop_retry _ _ _ _ k) by assumption.
    reflexivity.
  - exact Hp.
  - destruct Hp as [Hrange Hloop]. unfold translate_with_semaphore.
    rewrite <- Hloop, (translate_text_loop_answer _ _ _ _ k c) by (lia || done).
    reflexivity.
  - destruct Hp as [Hrange Hloop]. unfold translate_with_semaphore.
    rewrite <- Hloop, translate_text_loop_exhausted by (lia || done).
    reflexivity.
  - unfold translate_with_semaphore, complete. rewrite Hfails. reflexivity.
Qed.

(** A transition moves the counter of the semaphore by what the task
    takes or gives back. *)
Lemma transition_permit i text p d p' :
  moves i text p d p' ->
  d + Z.of_nat (Nat.b2n (holds_permit p')) = Z.of_nat (Nat.b2n (holds_permit p))
  /\ (p = Queued \/ 0 <= d).
Proof.
  intros Htr.
  destruct Htr as [| | | | |p Hfails Hholds]; simpl; rewrite ?Hholds;
    (split; [simpl; lia | (left; reflexivity) || (right; lia)]).
Qed.

Lemma transition_weight i text p d p' :
  moves i text p d p' -> (phase_weight p' < phase_weight p)%nat.
Proof.
  intros Htr.
  destruct Htr as [| | | | |p Hfails Hholds];
    [| | | | |destruct p; try discriminate Hholds];
    cbn [phase_weight]; unfold default_max_retries in *; lia.
Qed.

Lemma invariant_start max_concurrency :
  0 <= max_concurrency -> inv max_concurrency (start texts max_concurrency).
Proof.
  intros HK. split; simpl.
  - apply length_replicate.
  - exact HK.
  - unfold inside. simpl.
    rewrite length_filter_replicate_false by reflexivity. lia.
  - intros i text p _ Hp. apply lookup_replicate in Hp as [-> _]. exact I.
Qed.

Lemma invariant_step max_concurrency s s' :
  inv max_concurrency s -> batch_step s s' -> inv max_concurrency s'.
Proof.
  intros [Hlen Hperm Hbal Hph] Hstep.
  apply step_transition in Hstep
    as (i & text & p & d & p' & Ht & Hp & Htr & Hfree & ->).
  destruct (transition_permit _ _ _ _ _ Htr) as [Hd Hsign].
  pose proof (length_filter_insert holds_permit (tasks s) i p' p Hp) as Hcount.
  split; simpl.
  - rewrite length_insert. exact Hlen.
  - destruct Hsign as [->|Hd0]; [specialize (Hfree eq_refl)|]; [|lia].
    destruct (holds_permit p'); simpl in Hd; lia.
  - unfold inside in *. simpl. lia.
  - intros j text' q Ht' Hq. destruct (decide (i = j)) as [->|Hne].
    + rewrite list_lookup_insert_eq in Hq by (eapply lookup_lt_Some; eassumption).
      injection Hq as <-. assert (text' = text) as -> by congruence.
      eapply transition_phase_ok; [eassumption|]. eapply Hph; eassumption.
    + rewrite list_lookup_insert_ne in Hq by assumption.
      eapply Hph; eassumption.
Qed.

Lemma invariant_reachable max_concurrency s :
  0 <= max_concurrency -> reach max_concurrency s ->
  inv max_concurrency s.
Proof.
  intros HK Hreach. unfold reachable in Hreach.
  eapply (rtc_ind_r (fun s => inv max_concurrency s)); [| |exact Hreach].
  - apply invariant_start, HK.
  - intros s1 s2 _ Hstep IH. eapply invariant_step; eassumption.
Qed.

(** Requests in flight are sent from inside the semaphore, and the
    tasks inside hold the permits that are out. *)
Lemma in_flight_le_inside s : (in_flight s <= inside s)%nat.
Proof.
  apply length_filter_weaker. intros [ | | | ]; simpl; congruence.
Qed.

(** Every step uses up some of the steps that are left. *)
Lemma step_weight s s' : batch_step s s' -> (weight s' < weight s)%nat.
Proof.
  intros Hstep.
  apply step_transition in Hstep
    as (i & text & p & d & p' & Ht & Hp & Htr & Hfree & ->).
  pose proof (sum_list_with_insert phase_weight (tasks s) i p' p Hp).
  pose proof (transition_weight _ _ _ _ _ Htr).
  unfold weight. simpl. lia.
Qed.

(** A task inside the semaphore always has a next step. *)
Lemma step_task_inside i text p s :
  texts !! i = Some text -> tasks s !! i = Some p -> holds_permit p = true ->
  is_Some (task_step i s).
Proof.
  intros Ht Hp Hin. unfold step_task. rewrite Ht, Hp. simpl.
  destruct p as [|k|k|r]; try discriminate; [|eauto].
  destruct (responses env target_language i k); [eauto|..];
    destruct (k + 1 <=? default_max_retries); eauto.
Qed.

(** While a task is not done and the semaphore was given a permit,
    some task has a next step. *)
Lemma progress max_concurrency s :
  1 <= max_concurrency -> inv max_concurrency s ->
  ~ all_done s -> exists s', batch_step s s'.
Proof.
  intros HK [Hlen Hperm Hbal Hph] Hnot.
  apply not_Forall_Exists in Hnot; [|intros p; apply _].
  apply Exists_exists in Hnot as (p & Hin & Hp).
  apply list_elem_of_lookup in Hin as [i Hi].
  assert (is_Some (texts !! i)) as [text Ht].
  { apply lookup_lt_is_Some. rewrite <- Hlen. eapply lookup_lt_Some, Hi. }
  destruct (inside s) as [|n] eqn:Hinside.
  - destruct p as [|k|k|r]; simpl in Hp; [|exfalso..].
    + exists {| permits := permits s - 1;
                tasks := <[i:=InFlight 0]> (tasks s) |}, i.
      left. unfold step_task. rewrite Ht, Hi. simpl.
      assert ((0 <? permits s) = true) as -> by lia. reflexivity.
    + unfold inside in Hinside. apply length_zero_iff_nil in Hinside.
      assert (InFlight k ∈ filter (fun p => holds_permit p = true) (tasks s)) as Hel
        by (apply list_elem_of_filter; split;
            [reflexivity | eapply list_elem_of_lookup_2, Hi]).
      rewrite Hinside in Hel. inversion Hel.
    + unfold inside in Hinside. apply length_zero_iff_nil in Hinside.
      assert (Backoff k ∈ filter (fun p => holds_permit p = true) (tasks s)) as Hel
        by (apply list_elem_of_filter; split;
            [reflexivity | eapply list_elem_of_lookup_2, Hi]).
      rewrite Hinside in Hel. inversion Hel.
    + apply Hp. reflexivity.
  - unfold inside in Hinside.
    destruct (filter (fun p => holds_permit p = true) (tasks s))
      as [|q l] eqn:Hfilter; [discriminate|].
    assert (q ∈ filter (fun p => holds_permit p = true) (tasks s)) as Hq
      by (rewrite Hfilter; left).
    apply list_elem_of_filter in Hq as [Hhold Hq].
    apply list_elem_of_lookup in Hq as [j Hj].
    assert (is_Some (texts !! j)) as [text' Ht'].
    { apply lookup_lt_is_Some. rewrite <- Hlen. eapply lookup_lt_Some, Hj. }
    destruct (step_task_inside j text' q s Ht' Hj Hhold) as [s' Hs'].
    exists s', j. left. exact Hs'.
Qed.

(** From every state of a batch that has a permit, the tasks can run
    on until all are done; as every step uses up weight, they cannot
    run for ever either. *)
Lemma runs_to_completion max_concurrency :
  1 <= max_concurrency ->
  forall n s, weight s = n -> inv max_concurrency s ->
  exists s', rtc batch_step s s' /\ all_done s'.
Proof.
  intros HK n. induction n as [n IH] using lt_wf_ind. intros s Hn Hinv.
  destruct (decide (Forall (fun p => is_done p = true) (tasks s))) as [Hdone|Hnot].
  - exists s. split; [apply rtc_refl | exact Hdone].
  - destruct (progress max_concurrency s HK Hinv Hnot) as [s1 Hstep].
    destruct (IH (weight s1)) with (s := s1) as (s' & Hrun & Hdone).
    + rewrite <- Hn. apply step_weight, Hstep.
    + reflexivity.
    + eapply invariant_step; eassumption.
    + exists s'. split; [eapply rtc_l; eassumption | exact Hdone].
Qed.

(** Once all tasks are done, [gather] holds the result of every task
    in the order of the tasks, whatever the order they ended in. *)
Lemma gathered_all_done max_concurrency s :
  inv max_concurrency s -> all_done s ->
  gathered s = Some (gather env texts target_language).
Proof.
  intros [Hlen Hperm Hbal Hph] Hdone. unfold gathered.
  apply mapM_Some, Forall2_same_length_lookup_2.
  - rewrite length_gather. exact Hlen.
  - intros i p r Hp Hr.
    assert (is_Some (texts !! i)) as [text Ht].
    { apply lookup_lt_is_Some. rewrite <- Hlen. eapply lookup_lt_Some, Hp. }
    rewrite (lookup_gather _ _ _ _ _ Ht) in Hr. injection Hr as <-.
    pose proof (Forall_lookup_1 _ _ _ _ Hdone Hp) as Hd.
    destruct p as [| | |r]; try discriminate.
    f_equal. exact (Hph i text _ Ht Hp).
Qed.

(** A batch started without a permit cannot take a step: its tasks wait
    for ever. *)
Lemma no_permit_no_step i :
  task_step i (start texts 0) = None.
Proof.
  unfold step_task, start. simpl.
  destruct (texts !! i) as [text|]; [|reflexivity]. simpl.
  destruct (replicate (length texts) Queued !! i) as [p|] eqn:Hp; [|reflexivity].
  apply lookup_replicate in Hp as [-> _]. reflexivity.
Qed.

(** A schedule only takes steps of the batch. *)
Lemma run_schedule_steps schedule : forall s,
  rtc batch_step s (run_schedule env texts target_language schedule s).
Proof.
  induction schedule as [|i schedule IH]; intros s; [apply rtc_refl|].
  simpl. destruct (task_step i s) as [s'|] eqn:Hstep; simpl.
  - eapply rtc_l; [exists i; left; exact Hstep | apply IH].
  - apply IH.
Qed.
End dispatcher_facts.

(** ** Concrete runs *)

(** Two timeouts, then an answer: two sleeps of 2 and 4 seconds, and the
    answer comes back trimmed. *)
Example translate_text_third_attempt :
  let post := @Post decimal_runtime in
  let sleep := @Sleep decimal_runtime in
  translate_text (R := decimal_runtime) (py "Hello")
    (fun k => if k <? 2 then TimeoutError else Content (py " Bonjour "))
    3 (inject_Z 2)
  = (Some (py "Bonjour"),
     [post 0; sleep (inject_Z 2); post 1; sleep (inject_Z 4); post 2]).
Proof. reflexivity. Qed.

(** No answer at all: four requests, three sleeps, and the text comes
    back as it went in. *)
Example translate_text_gives_up :
  let post := @Post decimal_runtime in
  let sleep := @Sleep decimal_runtime in
  translate_text (R := decimal_runtime) (py " Hello ") (fun _ => Error)
    3 (inject_Z 2)
  = (Some (py " Hello "),
     [post 0; sleep (inject_Z 2); post 1; sleep (inject_Z 4); post 2;
      sleep (inject_Z 6); post 3]).
Proof. reflexivity. Qed.

(** Without a turn of the loop the function falls off its end. *)
Example translate_text_negative_retries :
  translate_text (R := decimal_runtime) (py "Hello") (fun _ => Error)
    (-1) (inject_Z 2)
  = (None, []).
Proof. reflexivity. Qed.

(** The batch of the two texts "Hello" and "World" into French. *)
Example translate_batch_hello_world :
  translate_batch (R := decimal_runtime) (answering [py "Bonjour"; py "Monde"])
    [py "Hello"; py "World"] (py "French") 2
  = Returns [Some (py "Bonjour"); Some (py "Monde")].
Proof. reflexivity. Qed.

(** The same batch with one permit, the second task entering first: it
    is done before the first task has sent its request, and [gather]
    still has the results in the order of the texts. *)
Example gather_in_the_order_of_the_texts :
  gathered
    (run_schedule (answering [py "Bonjour"; py "Monde"])
       [py "Hello"; py "World"] (py "French") [1; 0; 1; 0; 0]%nat
       (start [py "Hello"; py "World"] 1))
  = Some [Returned 0 (Some (py "Bonjour")); Returned 1 (Some (py "Monde"))].
Proof. reflexivity. Qed.

(** A unit that fails while its request is in flight: the permit goes
    back, the third unit enters, and the exception is collected in the
    place of the unit. *)
Example unit_fails_in_flight :
  let env := with_failure 1 (answering [py "Un"; py "Deux"; py "Trois"]) in
  let texts := [py "One"; py "Two"; py "Three"] in
  let s := run_schedule env texts (py "French") [0; 1]%nat (start texts 2) in
  step_task env texts (py "French") 2 s = None /\
  (abort_task env texts 1 s
     ≫= fun s' => gathered (run_schedule env texts (py "French")
                              [2; 0; 2]%nat s'))
  = Some [Returned 0 (Some (py "Un")); Raised; Returned 2 (Some (py "Trois"))].
Proof. split; reflexivity. Qed.

(** Without a permit the batch waits for ever; a negative number of
    permits is refused. *)
Example translate_batch_without_permit :
  translate_batch (R := decimal_runtime) (answering [py "Bonjour"])
    [py "Hello"] (py "French") 0 = Blocks /\
  translate_batch (R := decimal_runtime) (answering [py "Bonjour"])
    [py "Hello"] (py "French") (-1) = Raises.
Proof. split; reflexivity. Qed.

(** ** The claims about the translation client and the dispatcher *)

(** C3: for every text and every [max_retries >= 0], [translate_text]
    raises nothing and returns a string; when none of the requests
    numbered [0] to [max_retries] (that is, of the [max_retries + 1]
    attempts) is answered, the string is the text itself, unchanged. *)
Theorem translate_text_always_returns {R : PyRuntime}
    (text : str) (client : Z -> response) (max_retries : Z)
    (retry_delay : pyfloat) :
  0 <= max_retries ->
  exists result,
    (translate_text text client max_retries retry_delay).1 = Some result /\
    ((forall k, 0 <= k <= max_retries -> failed (client k) = true) ->
     result = text).
Proof.
  intros Hmax.
  apply (translate_text_loop_returns text client max_retries retry_delay
           (Z.to_nat (max_retries - 0)) 0); [exact Hmax | reflexivity].
Qed.

Lemma translate_text_always_returns_witness :
  0 <= 3 /\
  (forall k : Z, 0 <= k <= 3 -> failed TimeoutError = true) /\
  (translate_text (R := decimal_runtime) (py " Hello ")
     (fun _ => TimeoutError) 3 (inject_Z 2)).1 = Some (py " Hello ").
Proof.
  split; [lia|]. split; [intros k Hk; reflexivity|].
  destruct (translate_text_always_returns (R := decimal_runtime) (py " Hello ")
              (fun _ => TimeoutError) 3 (inject_Z 2))
    as (result & Hresult & Htext); [lia|].
  rewrite Hresult, Htext; [reflexivity | intros k Hk; reflexivity].
Defined.

(** C6: when the requests numbered [0] to [r - 1] all fail (attempts 1
    to [r]) and a retry is left ([r <= max_retries]), the sleep that
    comes between the failed request [r - 1] and the retry [r] lasts
    [retry_delay * r]. *)
Theorem backoff_delay_is_linear {R : PyRuntime}
    (text : str) (client : Z -> response) (max_retries : Z)
    (retry_delay : pyfloat) (r : Z) :
  1 <= r <= max_retries ->
  (forall k, 0 <= k < r -> failed (client k) = true) ->
  let events := (translate_text text client max_retries retry_delay).2 in
  events !! Z.to_nat (2 * r - 2) = Some (Post (r - 1)) /\
  events !! Z.to_nat (2 * r - 1) = Some (Sleep (float_mul_int retry_delay r)) /\
  events !! Z.to_nat (2 * r) = Some (Post r).
Proof.
  intros Hr Hfail events. subst events. unfold translate_text. split.
  - destruct (decide (r = 1)) as [->|Hne].
    + apply translate_text_loop_first_event. lia.
    + destruct (translate_text_loop_backoff text client max_retries retry_delay
                  (Z.to_nat (r - 2)) 0 (r - 1)) as [_ Hpost];
        [lia | lia | intros k Hk; apply Hfail; lia |].
      replace (2 * r - 2) with (2 * (r - 1 - 0)) by lia. exact Hpost.
  - destruct (translate_text_loop_backoff text client max_retries retry_delay
                (Z.to_nat (r - 1)) 0 r) as [Hsleep Hpost];
      [lia | lia | exact Hfail |].
    replace (r - 0) with r in * by lia. split; assumption.
Qed.

Lemma backoff_delay_is_linear_witness :
  let events :=
    (translate_text (R := decimal_runtime) (py "Hello")
       (fun k => if k <? 2 then Error else Content (py "Bonjour"))
       3 (inject_Z 2)).2 in
  events !! Z.to_nat (2 * 2 - 2) = Some (Post (2 - 1)) /\
  events !! Z.to_nat (2 * 2 - 1)
    = Some (Sleep (@float_mul_int decimal_runtime (inject_Z 2) 2)) /\
  events !! Z.to_nat (2 * 2) = Some (Post 2).
Proof.
  apply (backoff_delay_is_linear (R := decimal_runtime) (py "Hello")
           (fun k => if k <? 2 then Error else Content (py "Bonjour"))
           3 (inject_Z 2) 2).
  - lia.
  - intros k Hk. destruct (k <? 2) eqn:Hlt; [reflexivity | lia].
Defined.

(** The positions collected from the tasks of a batch are 0, 1, ...,
    one for every text. *)
Lemma positions_of_gather {R : PyRuntime} env texts target_language :
  fst <$> imap (fun i text => (Z.of_nat i, outcome env target_language i text))
            texts
  = Z.of_nat <$> seq 0 (length texts).
Proof.
  apply list_eq. intros i.
  rewrite !list_lookup_fmap, list_lookup_imap.
  destruct (texts !! i) as [text|] eqn:Ht; simpl.
  - rewrite lookup_seq_lt by (eapply lookup_lt_Some, Ht). reflexivity.
  - rewrite lookup_seq_ge by (apply lookup_ge_None, Ht). reflexivity.
Qed.

(** C1: for every list of [N] texts, every target language and every
    concurrency of at least one, [translate_batch] returns a list of
    [N] results. The positions collected with the results are exactly
    0, ..., [N - 1], each once, and the [i]-th result is the outcome of
    the [i]-th text, a string. The order in which the tasks end plays no part:
    whenever all tasks of a run are done, [gather] holds the same list;
    and every run comes to that point, since some task can move as long
    as one is not done and every step uses up weight. *)
Theorem translate_batch_keeps_order {R : PyRuntime}
    (env : environment) (texts : list str) (target_language : str)
    (max_concurrency : Z) :
  1 <= max_concurrency ->
  exists processed translated,
    process_results texts 0 (gather env texts target_language) = Some processed /\
    fst <$> processed = Z.of_nat <$> seq 0 (length texts) /\
    translate_batch env texts target_language max_concurrency
      = Returns translated /\
    length translated = length texts /\
    (forall i text, texts !! i = Some text ->
       translated !! i = Some (outcome env target_language i text)) /\
    Forall is_Some translated /\
    (forall s, reachable env texts target_language max_concurrency s ->
       all_done s -> gathered s = Some (gather env texts target_language)) /\
    (forall s, reachable env texts target_language max_concurrency s ->
       exists s', rtc (step env texts target_language) s s' /\ all_done s') /\
    (forall s, reachable env texts target_language max_concurrency s ->
       ~ all_done s -> exists s', step env texts target_language s s') /\
    (forall s s', step env texts target_language s s' ->
       (weight s' < weight s)%nat).
Proof.
  intros HK.
  exists (imap (fun i text => (Z.of_nat i, outcome env target_language i text))
            texts),
         (imap (outcome env target_language) texts).
  split; [apply process_results_gather|].
  split; [apply positions_of_gather|].
  split; [apply translate_batch_returns, HK|].
  split; [apply length_imap|].
  split; [intros i text Ht; rewrite list_lookup_imap, Ht; reflexivity|].
  split.
  { apply Forall_lookup. intros i r Hr.
    apply list_lookup_imap_Some in Hr as (text & _ & ->).
    apply outcome_is_Some. }
  repeat apply conj.
  - intros s Hreach Hdone.
    eapply gathered_all_done; [|exact Hdone].
    eapply invariant_reachable; [|exact Hreach]; lia.
  - intros s Hreach.
    eapply runs_to_completion; [exact HK | reflexivity |].
    eapply invariant_reachable; [|exact Hreach]; lia.
  - intros s Hreach Hnot.
    eapply progress; [exact HK | | exact Hnot].
    eapply invariant_reachable; [|exact Hreach]; lia.
  - apply step_weight.
Qed.

Lemma translate_batch_keeps_order_witness :
  exists processed translated,
    process_results [py "Hello"; py "World"] 0
      (gather (R := decimal_runtime) (answering [py "Bonjour"; py "Monde"])
         [py "Hello"; py "World"] (py "French")) = Some processed /\
    fst <$> processed = Z.of_nat <$> seq 0 (length [py "Hello"; py "World"]) /\
    translate_batch (R := decimal_runtime) (answering [py "Bonjour"; py "Monde"])
      [py "Hello"; py "World"] (py "French") 2 = Returns translated /\
    length translated = length [py "Hello"; py "World"] /\
    (forall i text, [py "Hello"; py "World"] !! i = Some text ->
       translated !! i
       = Some (outcome (R := decimal_runtime)
                 (answering [py "Bonjour"; py "Monde"]) (py "French") i text)) /\
    Forall is_Some translated /\
    (forall s,
       reachable (answering [py "Bonjour"; py "Monde"])
         [py "Hello"; py "World"] (py "French") 2 s ->
       all_done s ->
       gathered s
       = Some (gather (R := decimal_runtime)
                 (answering [py "Bonjour"; py "Monde"])
                 [py "Hello"; py "World"] (py "French"))) /\
    (forall s,
       reachable (answering [py "Bonjour"; py "Monde"])
         [py "Hello"; py "World"] (py "French") 2 s ->
       exists s',
         rtc (step (answering [py "Bonjour"; py "Monde"])
                [py "Hello"; py "World"] (py "French")) s s' /\ all_done s') /\
    (forall s,
       reachable (answering [py "Bonjour"; py "Monde"])
         [py "Hello"; py "World"] (py "French") 2 s ->
       ~ all_done s ->
       exists s',
         step (answering [py "Bonjour"; py "Monde"])
           [py "Hello"; py "World"] (py "French") s s') /\
    (forall s s',
       step (answering [py "Bonjour"; py "Monde"])
         [py "Hello"; py "World"] (py "French") s s' ->
       (weight s' < weight s)%nat).
Proof.
  apply (translate_batch_keeps_order (R := decimal_runtime)
           (answering [py "Bonjour"; py "Monde"])
           [py "Hello"; py "World"] (py "French") 2).
  lia.
Defined.

(** C2: in every state that a batch started with [max_concurrency = K]
    can be in, at most [K] requests are in flight. A task that waits for
    the semaphore cannot move while [K] tasks are inside, and can move
    as soon as fewer are. *)
Theorem in_flight_never_exceeds_max_concurrency {R : PyRuntime}
    (env : environment) (texts : list str) (target_language : str)
    (max_concurrency : Z) (s : dispatcher) :
  0 <= max_concurrency ->
  reachable env texts target_language max_concurrency s ->
  Z.of_nat (in_flight s) <= max_concurrency /\
  Z.of_nat (inside s) <= max_concurrency /\
  (forall i, tasks s !! i = Some Queued ->
     (Z.of_nat (inside s) = max_concurrency ->
      step_task env texts target_language i s = None) /\
     (Z.of_nat (inside s) < max_concurrency ->
      step_task env texts target_language i s
      = Some {| permits := permits s - 1;
                tasks := <[i:=InFlight 0]> (tasks s) |})).
Proof.
  intros HK Hreach.
  destruct (invariant_reachable env texts target_language max_concurrency s
              HK Hreach) as [Hlen Hperm Hbal Hph].
  pose proof (in_flight_le_inside s) as Hle.
  split; [lia|]. split; [lia|].
  intros i Hi.
  assert (is_Some (texts !! i)) as [text Ht].
  { apply lookup_lt_is_Some. rewrite <- Hlen. eapply lookup_lt_Some, Hi. }
  unfold step_task. rewrite Ht, Hi. simpl. split; intros Hin.
  - assert ((0 <? permits s) = false) as -> by lia. reflexivity.
  - assert ((0 <? permits s) = true) as -> by lia. reflexivity.
Qed.

Lemma in_flight_never_exceeds_max_concurrency_witness :
  let env := answering [py "Un"; py "Deux"; py "Trois"] in
  let texts := [py "One"; py "Two"; py "Three"] in
  let s := run_schedule env texts (py "French")
             [0; 1; 2]%nat (start texts 2) in
  in_flight s = 2%nat /\
  Z.of_nat (in_flight s) <= 2 /\
  Z.of_nat (inside s) <= 2 /\
  (forall i, tasks s !! i = Some Queued ->
     (Z.of_nat (inside s) = 2 ->
      step_task env texts (py "French") i s = None) /\
     (Z.of_nat (inside s) < 2 ->
      step_task env texts (py "French") i s
      = Some {| permits := permits s - 1;
                tasks := <[i:=InFlight 0]> (tasks s) |})).
Proof.
  intros env texts s. split; [reflexivity|].
  apply (in_flight_never_exceeds_max_concurrency (R := decimal_runtime)
           env texts (py "French") 2 s).
  - lia.
  - eapply rtc_l; [exists 0%nat; left; reflexivity|].
    eapply rtc_l; [exists 1%nat; left; reflexivity|].
    apply rtc_refl.
Defined.

(** C7: when the work of unit [i] ends in an exception that
    [translate_text] did not handle, [translate_batch] still returns;
    its result holds the text of unit [i] at position [i], and at every
    other position what it holds when unit [i] does not fail. This is
    the result of every run of the tasks, at whatever moment inside the
    semaphore unit [i] fails. *)
Theorem unit_failure_is_contained {R : PyRuntime}
    (env : environment) (texts : list str) (target_language : str)
    (max_concurrency : Z) (i : nat) (text : str) :
  1 <= max_concurrency ->
  texts !! i = Some text ->
  fails env i = true ->
  exists translated translated',
    translate_batch env texts target_language max_concurrency
      = Returns translated /\
    translated !! i = Some (Some text) /\
    translate_batch (without_failure i env) texts target_language
      max_concurrency = Returns translated' /\
    (forall j, j <> i -> translated !! j = translated' !! j) /\
    (forall s, reachable env texts target_language max_concurrency s ->
       all_done s -> gathered s ≫= collect texts = Some translated).
Proof.
  intros HK Ht Hfail.
  exists (imap (outcome env target_language) texts),
         (imap (outcome (without_failure i env) target_language) texts).
  split; [apply translate_batch_returns, HK|].
  split.
  { rewrite list_lookup_imap, Ht. unfold outcome. rewrite Hfail. reflexivity. }
  split; [apply translate_batch_returns, HK|].
  split.
  - intros j Hj. rewrite !list_lookup_imap.
    destruct (texts !! j) as [t|]; [|reflexivity]. simpl.
    unfold outcome, without_failure. simpl.
    rewrite bool_decide_eq_false_2 by exact Hj. reflexivity.
  - intros s Hreach Hdone.
    rewrite (gathered_all_done env texts target_language max_concurrency s);
      [apply collect_gather | | exact Hdone].
    eapply invariant_reachable; [|exact Hreach]; lia.
Qed.

Lemma unit_failure_is_contained_witness :
  let env := with_failure 1 (answering [py "Un"; py "Deux"; py "Trois"]) in
  let texts := [py "One"; py "Two"; py "Three"] in
  exists translated translated',
    translate_batch (R := decimal_runtime) env texts (py "French") 2
      = Returns translated /\
    translated !! 1%nat = Some (Some (py "Two")) /\
    translate_batch (R := decimal_runtime) (without_failure 1 env) texts
      (py "French") 2 = Returns translated' /\
    (forall j, j <> 1%nat -> translated !! j = translated' !! j) /\
    (forall s, reachable env texts (py "French") 2 s ->
       all_done s -> gathered s ≫= collect texts = Some translated).
Proof.
  intros env texts.
  apply (unit_failure_is_contained (R := decimal_runtime) env texts
           (py "French") 2 1 (py "Two")).
  - lia.
  - reflexivity.
  - reflexivity.
Defined.

(** ** The parser *)

(** Blocks out of order are sorted by their start time and numbered
    anew; the lines after the time line are the content. *)
Example parse_content_sorts :
  fmap (M := list) (fun e => (index e, start_time e, content e))
    <$> parse_content (R := decimal_runtime)
          (file_of_lines ["7"; "00:00:03,000 --> 00:00:04,500"; "World"; "";
                          "3"; " 00:00:01,000 --> 00:00:02,000"; "Hello";
                          "there"]%string)
  = Some [(1, py "00:00:01,000", py "Hello" ++ [LF] ++ py "there");
          (2, py "00:00:03,000", py "World")].
Proof. vm_compute. reflexivity. Qed.

(** A block of fewer than three lines is passed over; a block whose
    number is not one makes the whole call fail. *)
Example parse_content_short_and_bad_blocks :
  parse_content (R := decimal_runtime)
    (file_of_lines ["1"; "00:00:01,000 --> 00:00:02,000"]%string) = Some [] /\
  parse_content (R := decimal_runtime)
    (file_of_lines ["one"; "00:00:01,000 --> 00:00:02,000"; "Hello"]%string)
  = None.
Proof. split; vm_compute; reflexivity. Qed.

(** The merged file has the translation on the line after the text. *)
Example save_translated_srt_merged :
  files_after
    (save_translated_srt (R := decimal_runtime)
       [entry_of 1 "Hello" "Bonjour"; entry_of 2 "World" ""]
       (py "out.srt") ∅) !! in_cwd "out.srt"
  = Some (file_of_lines ["1"; "00:00:01,000 --> 00:00:02,000"; "Hello";
                         "Bonjour"; "";
                         "2"; "00:00:01,000 --> 00:00:02,000"; "World";
                         ""]%string).
Proof. vm_compute. reflexivity. Qed.

Section parser_facts.
Context {R : PyRuntime}.

Lemma Forall_insert_sorted {A K} (lt : K -> K -> bool) (key : A -> K)
    (P : A -> Prop) x (l : list A) :
  P x -> Forall P l -> Forall P (insert_sorted lt key x l).
Proof.
  intros Hx Hl. induction Hl as [|y l Hy Hl IH]; simpl.
  - constructor; [exact Hx | constructor].
  - destruct (lt (key y) (key x)); constructor; try assumption.
    constructor; assumption.
Qed.

Lemma Forall_sorted {A K} (lt : K -> K -> bool) (key : A -> K)
    (P : A -> Prop) (l : list A) :
  Forall P l -> Forall P (sorted lt key l).
Proof.
  intros Hl. induction Hl as [|x l Hx Hl IH]; [constructor|].
  unfold sorted in *. simpl. apply Forall_insert_sorted; assumption.
Qed.

(** A block gives an entry without a translation. *)
Lemma parse_block_translated_content block time_obj entry :
  parse_block block = Some (Some (time_obj, entry)) ->
  translated_content entry = [].
Proof.
  unfold parse_block. intros H.
  destruct (length (split (strip block) [LF]) <? 3)%nat; [discriminate|].
  destruct (split (strip block) [LF] !! 0%nat) as [line0|]; [|discriminate].
  simpl in H. destruct (py_int line0) as [i|]; [|discriminate].
  simpl in H.
  destruct (split (strip block) [LF] !! 1%nat) as [time_line|]; [|discriminate].
  simpl in H.
  destruct (split time_line (py " --> ")) as [|a [|b [|c parts]]];
    try discriminate.
  destruct (parse_time a) as [[a' t]|]; [|discriminate]. simpl in H.
  destruct (parse_time b) as [[b' t']|]; [|discriminate]. simpl in H.
  injection H as _ <-. reflexivity.
Qed.

Lemma parse_blocks_translated_content blocks : forall entries,
  parse_blocks blocks = Some entries ->
  Forall (fun e => translated_content (snd e) = []) entries.
Proof.
  induction blocks as [|block blocks IH]; intros entries H; simpl in H.
  - injection H as <-. constructor.
  - destruct (parse_block block) as [parsed|] eqn:Hblock; [|discriminate].
    simpl in H. destruct (parse_blocks blocks) as [rest|]; [|discriminate].
    simpl in H. injection H as <-. specialize (IH rest eq_refl).
    destruct parsed as [[time_obj entry]|]; [|exact IH].
    constructor; [|exact IH].
    eapply parse_block_translated_content, Hblock.
Qed.

(** [parse_file] leaves every entry without a translation. *)
Lemma parse_content_translated_content text entries :
  parse_content text = Some entries ->
  Forall (fun e => translated_content e = []) entries.
Proof.
  unfold parse_content. intros H.
  destruct (parse_blocks (split (strip text) [LF; LF])) as [parsed|] eqn:Hp;
    [|discriminate].
  simpl in H. injection H as <-.
  apply parse_blocks_translated_content in Hp.
  apply (Forall_sorted datetime_lt fst) in Hp.
  apply Forall_lookup. intros i e He.
  apply list_lookup_imap_Some in He as (p & Hp' & ->).
  exact (Forall_lookup_1 _ _ _ _ Hp Hp').
Qed.

Lemma parse_file_translated_content fs file_path entries :
  parse_file fs file_path = Some entries ->
  Forall (fun e => translated_content e = []) entries.
Proof.
  unfold parse_file.
  destruct (read_text fs file_path) as [text|]; [|discriminate].
  apply parse_content_translated_content.
Qed.
End parser_facts.

(** ** The history cache *)

(** Entries without a translation leave the mapping as it is. *)
Lemma foldl_history_untranslated entries : forall history_map : gmap str str,
  Forall (fun e => translated_content e = []) entries ->
  foldl (fun (history_map : gmap str str) entry =>
           if truthy (translated_content entry)
           then <[strip (content entry) := strip (translated_content entry)]>
                  history_map
           else history_map)
        history_map entries = history_map.
Proof.
  induction entries as [|e entries IH]; intros m Hall; [reflexivity|].
  inversion Hall as [|? ? He Hrest]; subst. simpl. rewrite He. simpl.
  apply IH, Hrest.
Qed.

Lemma build_history_map_untranslated entries :
  Forall (fun e => translated_content e = []) entries ->
  build_history_map entries = ∅.
Proof. apply foldl_history_untranslated. Qed.

(** Whatever the history file, the mapping is empty when the loop over
    the entries starts. *)
Lemma load_history_empty {R : PyRuntime} fs use_history history_file :
  load_history fs use_history history_file = ∅.
Proof.
  unfold load_history. destruct history_file as [path|]; [|reflexivity].
  destruct (use_history && truthy path); [|reflexivity].
  destruct (parse_file fs path) as [entries|] eqn:Hparse; [|reflexivity].
  apply build_history_map_untranslated.
  eapply parse_file_translated_content, Hparse.
Qed.

(** The loop "prepare texts to translate", entry by entry. *)
Lemma prepare_texts_spec history_map entries :
  prepare_texts history_map entries
  = (prepare_entry history_map <$> entries,
     content <$> misses history_map entries).
Proof.
  induction entries as [|e entries IH]; [reflexivity|].
  cbn [prepare_texts]. rewrite IH, fmap_cons. unfold misses.
  rewrite filter_cons.
  destruct (history_lookup history_map (strip (content e))) as [t|] eqn:Hl.
  - assert (prepare_entry history_map e = set_translated_content t e) as ->
      by (unfold prepare_entry; rewrite Hl; reflexivity).
    rewrite decide_False by discriminate. reflexivity.
  - assert (prepare_entry history_map e = e) as ->
      by (unfold prepare_entry; rewrite Hl; reflexivity).
    rewrite decide_True by reflexivity. reflexivity.
Qed.

(** With an empty mapping every entry is left as it is and every text
    is to be translated. *)
Lemma prepare_texts_empty entries :
  prepare_texts ∅ entries = (entries, content <$> entries).
Proof.
  induction entries as [|e entries IH]; [reflexivity|].
  cbn [prepare_texts]. rewrite IH. unfold history_lookup.
  rewrite decide_True by reflexivity. reflexivity.
Qed.

(** C10: whatever the history file, [parse_file] gives every entry an
    empty [translated_content]; the mapping built from it by
    [translate_entries] is empty, so that zero records are reported,
    and no entry of the parser finds a translation in it: all texts go
    to the translator. *)
Theorem history_file_is_never_used {R : PyRuntime}
    (fs : files) (use_history : bool) (history_file : option str)
    (file_path : str) (entries : list SubtitleEntry) :
  Forall (fun e => translated_content e = [])
         (default [] (parse_file fs file_path)) /\
  load_history fs use_history history_file = ∅ /\
  size (load_history fs use_history history_file) = O /\
  prepare_texts (load_history fs use_history history_file) entries
  = (entries, content <$> entries).
Proof.
  split.
  { destruct (parse_file fs file_path) as [es|] eqn:Hparse; [|constructor].
    simpl. eapply parse_file_translated_content, Hparse. }
  rewrite load_history_empty.
  split; [reflexivity|]. split; [apply map_size_empty|].
  apply prepare_texts_empty.
Qed.

(** The guard [history_map and ...] changes nothing: the test is a plain
    lookup. *)
Lemma history_lookup_lookup (history_map : gmap str str) k :
  history_lookup history_map k = history_map !! k.
Proof.
  unfold history_lookup. destruct (decide (history_map = ∅)) as [->|]; [|done].
  rewrite lookup_empty. reflexivity.
Qed.

Lemma build_history_map_snoc entries entry :
  build_history_map (entries ++ [entry])
  = if truthy (translated_content entry)
    then <[strip (content entry) := strip (translated_content entry)]>
           (build_history_map entries)
    else build_history_map entries.
Proof. unfold build_history_map. rewrite foldl_app. reflexivity. Qed.

(** C9, as the code has it: the mapping binds a key to the trimmed
    translation of the last entry among those that have this key as
    trimmed content and carry a translation; entries without a
    translation are passed over, and a key without such an entry is not
    bound. *)
Theorem last_recorded_entry_wins (entries : list SubtitleEntry) (k : str) :
  build_history_map entries !! k
  = (fun entry => strip (translated_content entry))
      <$> last (recorded k entries).
Proof.
  induction entries as [|entry entries IH] using rev_ind.
  - unfold build_history_map. simpl. apply lookup_empty.
  - rewrite build_history_map_snoc. unfold recorded in *.
    rewrite filter_app, filter_cons, filter_nil.
    destruct (truthy (translated_content entry)) eqn:Htruthy.
    + destruct (decide (strip (content entry) = k)) as [Hk|Hk].
      * rewrite decide_True by (split; [reflexivity | exact Hk]).
        rewrite last_snoc, Hk, lookup_insert_eq. reflexivity.
      * rewrite decide_False by (intros [_ Hk']; exact (Hk Hk')).
        rewrite app_nil_r, lookup_insert_ne by exact Hk. exact IH.
    + rewrite decide_False by (intros [Hf _]; discriminate Hf).
      rewrite app_nil_r. exact IH.
Qed.

(** C9, as the claim has it, fails: of two entries with the key
    ["Hello"] the last one carries no translation, and the key stays
    bound to the translation of the first; and for a history file with
    the text ["Hello"] twice, as [parse_file] reads it, the key is not
    bound at all. *)
Lemma last_seen_entry_does_not_win :
  let entries := [entry_of 1 "Hello" "Bonjour"; entry_of 2 "Hello" ""] in
  let fs : files := {[ in_cwd "history.srt" := hello_twice ]} in
  last (filter (fun entry => strip (content entry) = py "Hello") entries)
    = Some (entry_of 2 "Hello" "") /\
  build_history_map entries !! py "Hello" = Some (py "Bonjour") /\
  build_history_map entries !! py "Hello"
    <> Some (translated_content (entry_of 2 "Hello" "")) /\
  (fmap (M := list) (strip ∘ content)
     <$> parse_file (R := decimal_runtime) fs (py "history.srt"))
    = Some [py "Hello"; py "Hello"] /\
  load_history (R := decimal_runtime) fs true (Some (py "history.srt"))
    !! py "Hello" = None.
Proof.
  intros entries fs. repeat split; try (vm_compute; reflexivity).
  vm_compute. discriminate.
Qed.

(** ** The merge of history hits and translator results *)

(** With enough results for the entries that wait for one, the loop
    "update translation results" runs to its end and leaves the entries
    that have a translation as they are. *)
Lemma update_results_enough translated_texts entries : forall j,
  (length (untranslated entries) + j <= length translated_texts)%nat ->
  exists result,
    update_results translated_texts j entries = Some result /\
    length result = length entries /\
    (forall i entry, entries !! i = Some entry ->
       truthy (translated_content entry) = true -> result !! i = Some entry).
Proof.
  induction entries as [|e entries IH]; intros j Hlen.
  - exists []. repeat split. intros i entry Hi. discriminate Hi.
  - unfold untranslated in *. rewrite filter_cons in Hlen. simpl.
    destruct (truthy (translated_content e)) eqn:Htruthy.
    + rewrite decide_False in Hlen by discriminate.
      destruct (IH j Hlen) as (result & -> & Hlength & Hkeep).
      exists (e :: result). simpl. repeat split; [by rewrite Hlength|].
      intros [|i] entry Hi Ht; [exact Hi | exact (Hkeep i entry Hi Ht)].
    + rewrite decide_True in Hlen by reflexivity. simpl in Hlen.
      destruct (lookup_lt_is_Some_2 translated_texts j) as [text Htext]; [lia|].
      rewrite Htext. simpl.
      destruct (IH (S j)) as (result & -> & Hlength & Hkeep); [lia|].
      eexists. simpl. repeat split; [simpl; by rewrite Hlength|].
      intros [|i] entry Hi Ht; [|exact (Hkeep i entry Hi Ht)].
      injection Hi as <-. congruence.
Qed.

(** The loop ends in an IndexError as soon as results are missing. *)
Lemma update_results_needs translated_texts entries : forall j result,
  (j <= length translated_texts)%nat ->
  update_results translated_texts j entries = Some result ->
  (length (untranslated entries) + j <= length translated_texts)%nat.
Proof.
  induction entries as [|e entries IH]; intros j result Hj H.
  - simpl. exact Hj.
  - unfold untranslated in *. rewrite filter_cons. simpl in H.
    destruct (truthy (translated_content e)) eqn:Htruthy.
    + rewrite decide_False by discriminate.
      destruct (update_results translated_texts j entries) as [rest|] eqn:Hrest;
        [|discriminate].
      exact (IH j rest Hj Hrest).
    + rewrite decide_True by reflexivity.
      destruct (translated_texts !! j) as [text|] eqn:Htext; [|discriminate].
      simpl in H.
      destruct (update_results translated_texts (S j) entries) as [rest|] eqn:Hrest;
        [|discriminate].
      apply lookup_lt_Some in Htext.
      specialize (IH (S j) rest Htext Hrest). simpl. lia.
Qed.

(** When no entry has a translation yet and no translation of the
    history is empty, the entries that wait for a result after the
    lookup are the misses. *)
Lemma untranslated_after_prepare (history_map : gmap str str) entries :
  Forall (fun e => translated_content e = []) entries ->
  (forall k translation, history_map !! k = Some translation -> translation <> []) ->
  length (untranslated (prepare_entry history_map <$> entries))
  = length (misses history_map entries).
Proof.
  intros Hfresh Hfull. induction Hfresh as [|e entries He Hfresh IH];
    [reflexivity|].
  rewrite fmap_cons. unfold untranslated, misses in *. rewrite !filter_cons.
  destruct (decide (history_lookup history_map (strip (content e)) = None))
    as [Hnone|Hsome].
  - assert (prepare_entry history_map e = e) as ->
      by (unfold prepare_entry; rewrite Hnone; reflexivity).
    rewrite decide_True by (rewrite He; reflexivity).
    simpl. f_equal. exact IH.
  - assert (exists t, history_lookup history_map (strip (content e)) = Some t)
      as [t Hl].
    { destruct (history_lookup history_map (strip (content e))) as [t|] eqn:Hl;
        [eauto | contradiction]. }
    assert (prepare_entry history_map e = set_translated_content t e) as ->
      by (unfold prepare_entry; rewrite Hl; reflexivity).
    rewrite history_lookup_lookup in Hl. apply Hfull in Hl.
    rewrite decide_False; [exact IH|].
    simpl. destruct t; [contradiction | discriminate].
Qed.

(** When no translation of the history is empty, the entries that wait
    for a result after the lookup are misses. *)
Lemma untranslated_after_prepare_le (history_map : gmap str str) entries :
  (forall k translation, history_map !! k = Some translation -> translation <> []) ->
  (length (untranslated (prepare_entry history_map <$> entries))
   <= length (misses history_map entries))%nat.
Proof.
  intros Hfull. induction entries as [|e entries IH]; [reflexivity|].
  rewrite fmap_cons. unfold untranslated, misses in *.
  destruct (decide (history_lookup history_map (strip (content e)) = None))
    as [Hnone|Hsome].
  - rewrite (filter_cons_True _ e) by exact Hnone.
    assert (prepare_entry history_map e = e) as ->
      by (unfold prepare_entry; rewrite Hnone; reflexivity).
    destruct (decide (truthy (translated_content e) = false)) as [He|He].
    + rewrite filter_cons_True by exact He. simpl. lia.
    + rewrite filter_cons_False by exact He. simpl. lia.
  - rewrite (filter_cons_False _ e) by exact Hsome.
    assert (exists t, history_lookup history_map (strip (content e)) = Some t)
      as [t Hl].
    { destruct (history_lookup history_map (strip (content e))) as [t|] eqn:Hl;
        [eauto | contradiction]. }
    assert (prepare_entry history_map e = set_translated_content t e) as ->
      by (unfold prepare_entry; rewrite Hl; reflexivity).
    rewrite history_lookup_lookup in Hl. apply Hfull in Hl.
    rewrite filter_cons_False; [exact IH|].
    simpl. destruct t; [contradiction | discriminate].
Qed.

(** What lines 121 to 151 do with a mapping, if one is there: when the
    translator returns one text for each text it is given (as
    [translate_batch] does) and no translation of the mapping is empty,
    then for every unit whose trimmed text has an entry in the mapping
    the call returns, the translated text of the unit is the mapped
    translation, and no text handed to the translator has the trimmed
    text of this unit. *)
Lemma history_hit_is_reused
    (translator : list str -> str -> Z -> run (list str))
    (history_map : gmap str str) (entries : list SubtitleEntry)
    (target_language : str) (max_concurrency : Z)
    (i : nat) (entry : SubtitleEntry) (translation : str) :
  (forall texts, exists translated_texts,
     translator texts target_language max_concurrency = Returns translated_texts /\
     length translated_texts = length texts) ->
  (forall k t, history_map !! k = Some t -> t <> []) ->
  entries !! i = Some entry ->
  history_map !! strip (content entry) = Some translation ->
  exists result,
    translate_with_history translator history_map entries target_language
      max_concurrency = Returns result /\
    translated_content <$> entries_after result !! i = Some translation /\
    stored result !! i = Some translation /\
    (forall batch text, batch ∈ dispatched result -> text ∈ batch ->
       strip text <> strip (content entry)) /\
    (forall batch, batch ∈ dispatched result ->
       batch = content <$> misses history_map entries).
Proof.
  intros Htranslator Hfull Hi Hhit.
  assert (prepare_entry history_map entry
          = set_translated_content translation entry) as Hprepared
    by (unfold prepare_entry; rewrite history_lookup_lookup, Hhit; reflexivity).
  assert (forall text, text ∈ content <$> misses history_map entries ->
            strip text <> strip (content entry)) as Hmiss.
  { intros text Hin Heq.
    apply list_elem_of_fmap in Hin as (e & -> & He).
    apply list_elem_of_filter in He as [He _].
    rewrite history_lookup_lookup, Heq, Hhit in He. discriminate He. }
  assert (truthy translation = true) as Htruthy.
  { specialize (Hfull _ _ Hhit). destruct translation; [contradiction|reflexivity]. }
  unfold translate_with_history. rewrite prepare_texts_spec.
  destruct (bool_decide (content <$> misses history_map entries ≠ [])) eqn:Hsome.
  - destruct (Htranslator (content <$> misses history_map entries))
      as (translated_texts & -> & Hlength).
    destruct (update_results_enough translated_texts
                (prepare_entry history_map <$> entries) 0)
      as (result & -> & Hlen & Hkeep).
    { pose proof (untranslated_after_prepare_le history_map entries Hfull).
      rewrite Hlength, length_fmap. lia. }
    assert (result !! i = Some (set_translated_content translation entry)) as Hres.
    { apply Hkeep; [|exact Htruthy].
      rewrite list_lookup_fmap, Hi. simpl. rewrite Hprepared. reflexivity. }
    eexists. split; [reflexivity|]. simpl.
    split; [rewrite Hres; reflexivity|].
    split; [rewrite list_lookup_fmap, Hres; reflexivity|].
    split.
    + intros batch text Hbatch. apply list_elem_of_singleton in Hbatch as ->.
      apply Hmiss.
    + intros batch Hbatch. apply list_elem_of_singleton in Hbatch as ->.
      reflexivity.
  - eexists. split; [reflexivity|]. simpl.
    split; [rewrite list_lookup_fmap, Hi; simpl; rewrite Hprepared; reflexivity|].
    split; [rewrite !list_lookup_fmap, Hi; simpl; rewrite Hprepared; reflexivity|].
    split.
    + intros batch text Hbatch. inversion Hbatch.
    + intros batch Hbatch. inversion Hbatch.
Qed.

(** A mapping with a hit, were one loaded. *)
Example history_hit_with_a_mapping :
  let history_map : gmap str str := {[ py "Hi" := py "Salut" ]} in
  let entries := [entry_of 1 " Hi " ""; entry_of 2 "Hello" ""] in
  translate_with_history (dictionary_translator french) history_map entries
    (py "French") 5
  = Returns {| entries_after :=
                 [entry_of 1 " Hi " "Salut"; entry_of 2 "Hello" "Bonjour"];
               stored := [py "Salut"; py "Bonjour"];
               dispatched := [[py "Hello"]] |}.
Proof. reflexivity. Qed.


(** ** No check of the positions *)

Lemma insert_sorted_Permutation {A K} (lt : K -> K -> bool) (key : A -> K)
    x (l : list A) :
  insert_sorted lt key x l ≡ₚ x :: l.
Proof.
  induction l as [|y l IH]; simpl; [reflexivity|].
  destruct (lt (key y) (key x)); [|reflexivity].
  rewrite IH. apply Permutation_swap.
Qed.

Lemma sorted_Permutation {A K} (lt : K -> K -> bool) (key : A -> K)
    (l : list A) :
  sorted lt key l ≡ₚ l.
Proof.
  induction l as [|x l IH]; [reflexivity|].
  unfold sorted in *. simpl. rewrite insert_sorted_Permutation, IH.
  reflexivity.
Qed.

(** The loop over the results never looks at the positions they carry;
    it needs a text only for a task that raised. *)
Lemma process_results_total texts results : forall i,
  (i + length results <= length texts)%nat ->
  exists processed,
    process_results texts i results = Some processed /\
    length processed = length results.
Proof.
  induction results as [|result results IH]; intros i Hlen.
  - exists []. split; reflexivity.
  - simpl in Hlen. destruct (IH (S i)) as (processed & Hp & Hl); [lia|].
    cbn [process_results]. rewrite Hp.
    destruct result as [position r|].
    + eexists. split; [reflexivity|]. simpl. by rewrite Hl.
    + destruct (lookup_lt_is_Some_2 texts i) as [text ->]; [lia|].
      eexists. split; [reflexivity|]. simpl. by rewrite Hl.
Qed.

(** What the loop makes of each slot: the tuple of a task that returned
    as it is, and for a task that raised its place in the list with the
    text of that place. *)
Lemma process_results_lookup texts results : forall i processed,
  process_results texts i results = Some processed ->
  forall n r, results !! n = Some r ->
    processed !! n
    = Some (match r with
            | Returned position result => (position, result)
            | Raised => (Z.of_nat (i + n), texts !! (i + n)%nat)
            end).
Proof.
  induction results as [|result results IH]; intros i processed Hp n r Hr;
    [discriminate|].
  cbn [process_results] in Hp.
  destruct (match result with
            | Returned index r0 => Some (index, r0)
            | Raised => texts !! i ≫= fun text => Some (Z.of_nat i, Some text)
            end) as [item|] eqn:Hitem; [|discriminate].
  simpl in Hp.
  destruct (process_results texts (S i) results) as [rest|] eqn:Hrest;
    [|discriminate].
  simpl in Hp. injection Hp as <-.
  destruct n as [|n].
  - injection Hr as <-. simpl. rewrite Nat.add_0_r.
    destruct result as [position r0|].
    + injection Hitem as <-. reflexivity.
    + destruct (texts !! i) as [text|]; [|discriminate].
      injection Hitem as <-. reflexivity.
  - simpl. rewrite (IH (S i) rest Hrest n r Hr).
    replace (S i + n)%nat with (i + S n)%nat by lia. reflexivity.
Qed.

Section stable_sort.
Context {A : Type} (key : A -> Z).

(** The sort leaves the list in the order of the keys *)
Lemma ascending_insert_sorted x l :
  ascending key l -> ascending key (insert_sorted Z.ltb key x l).
Proof.
  induction l as [|y l IH]; intros Hl; [simpl; auto|].
  simpl. destruct (Z.ltb_spec (key y) (key x)) as [Hlt|Hge].
  - destruct Hl as [Hy Hl]. specialize (IH Hl). split; [|exact IH].
    destruct l as [|z l]; simpl; [lia|].
    destruct (Z.ltb_spec (key z) (key x)); [exact Hy | lia].
  - split; [exact Hge | exact Hl].
Qed.

Lemma ascending_sorted l : ascending key (sorted Z.ltb key l).
Proof.
  induction l as [|x l IH]; [exact I|].
  apply ascending_insert_sorted, IH.
Qed.

(** and is stable: the elements of one key stay in their order. *)
Lemma filter_insert_sorted (k : Z) x l :
  filter (fun a => key a = k) (insert_sorted Z.ltb key x l)
  = filter (fun a => key a = k) (x :: l).
Proof.
  induction l as [|y l IH]; [reflexivity|].
  simpl. destruct (Z.ltb_spec (key y) (key x)) as [Hlt|Hge]; [|reflexivity].
  destruct (decide (key y = k)) as [Hy|Hy].
  - rewrite (filter_cons_True _ y) by exact Hy. rewrite IH.
    rewrite !(filter_cons_False _ x) by lia.
    rewrite filter_cons_True by exact Hy. reflexivity.
  - rewrite (filter_cons_False _ y) by exact Hy. rewrite IH.
    destruct (decide (key x = k)) as [Hx|Hx].
    + rewrite !(filter_cons_True _ x) by exact Hx.
      rewrite filter_cons_False by exact Hy. reflexivity.
    + rewrite !(filter_cons_False _ x) by exact Hx.
      rewrite filter_cons_False by exact Hy. reflexivity.
Qed.

Lemma filter_sorted (k : Z) l :
  filter (fun a => key a = k) (sorted Z.ltb key l)
  = filter (fun a => key a = k) l.
Proof.
  induction l as [|x l IH]; [reflexivity|].
  change (sorted Z.ltb key (x :: l))
    with (insert_sorted Z.ltb key x (sorted Z.ltb key l)).
  rewrite filter_insert_sorted.
  destruct (decide (key x = k)) as [Hx|Hx].
  - rewrite !(filter_cons_True _ x) by exact Hx. rewrite IH. reflexivity.
  - rewrite !(filter_cons_False _ x) by exact Hx. exact IH.
Qed.
End stable_sort.

(** The loop "update translation results" after the lookup in the
    history, for entries that had no translation and a history without
    empty translations: a hit keeps the translation of the history, and
    a miss takes the result whose number is the number of misses before
    it. *)
Lemma update_results_merge (translated_texts : list str)
    (history_map : gmap str str) entries :
  (forall k t, history_map !! k = Some t -> t <> []) ->
  Forall (fun e => translated_content e = []) entries ->
  forall j result,
    update_results translated_texts j (prepare_entry history_map <$> entries)
      = Some result ->
    length result = length entries /\
    forall i entry, entries !! i = Some entry ->
      result !! i
      = Some (set_translated_content
                (match history_map !! strip (content entry) with
                 | Some translation => translation
                 | None =>
                     default []
                       (translated_texts
                          !! (j + length (misses history_map (take i entries)))%nat)
                 end) entry).
Proof.
  intros Hfull Hfresh. induction Hfresh as [|e entries He Hfresh IH];
    intros j result Hresult.
  - simpl in Hresult. injection Hresult as <-. split; [reflexivity|].
    intros i entry Hi. discriminate Hi.
  - rewrite fmap_cons in Hresult. cbn [update_results] in Hresult.
    destruct (history_map !! strip (content e)) as [t|] eqn:Hlookup.
    + assert (prepare_entry history_map e = set_translated_content t e) as Hpe
        by (unfold prepare_entry; rewrite history_lookup_lookup, Hlookup;
            reflexivity).
      rewrite Hpe in Hresult.
      assert (truthy (translated_content (set_translated_content t e)) = true)
        as Ht.
      { simpl. specialize (Hfull _ _ Hlookup).
        destruct t; [contradiction | reflexivity]. }
      rewrite Ht in Hresult.
      destruct (update_results translated_texts j
                  (prepare_entry history_map <$> entries)) as [rest|] eqn:Hrest;
        [|simpl in Hresult; discriminate].
      simpl in Hresult. injection Hresult as <-.
      destruct (IH j rest Hrest) as [Hlen Hat].
      split; [simpl; congruence|].
      intros [|i] entry Hi.
      * injection Hi as <-. simpl. rewrite Hlookup. reflexivity.
      * assert (length (misses history_map (take (S i) (e :: entries)))
                = length (misses history_map (take i entries))) as ->.
        { change (take (S i) (e :: entries)) with (e :: take i entries).
          unfold misses. rewrite filter_cons_False; [reflexivity|].
          rewrite history_lookup_lookup, Hlookup. discriminate. }
        exact (Hat i entry Hi).
    + assert (prepare_entry history_map e = e) as Hpe
        by (unfold prepare_entry; rewrite history_lookup_lookup, Hlookup;
            reflexivity).
      rewrite Hpe, He in Hresult. simpl in Hresult.
      destruct (translated_texts !! j) as [text|] eqn:Htext;
        [|simpl in Hresult; discriminate].
      simpl in Hresult.
      destruct (update_results translated_texts (S j)
                  (prepare_entry history_map <$> entries)) as [rest|] eqn:Hrest;
        [|simpl in Hresult; discriminate].
      simpl in Hresult. injection Hresult as <-.
      destruct (IH (S j) rest Hrest) as [Hlen Hat].
      split; [simpl; congruence|].
      intros [|i] entry Hi.
      * injection Hi as <-. simpl. rewrite Hlookup, Nat.add_0_r, Htext.
        reflexivity.
      * assert (length (misses history_map (take (S i) (e :: entries)))
                = S (length (misses history_map (take i entries)))) as ->.
        { change (take (S i) (e :: entries)) with (e :: take i entries).
          unfold misses. rewrite filter_cons_True; [reflexivity|].
          rewrite history_lookup_lookup. exact Hlookup. }
        rewrite Nat.add_succ_r. exact (Hat i entry Hi).
Qed.

(** C5, as the code has it: the merge checks no position and raises no
    consistency error. In [translate_batch], given one slot for each
    text, the slot of a task that raised becomes its place in the list
    with the text of that place, the pairs are sorted by position with
    a stable sort (ascending, and pairs of the same position keep their
    order) and their texts are returned, whatever positions the pairs
    carry. In [translate_entries], for entries without a translation
    and a history without empty translations, an entry with a hit gets
    the translation of the history and the [j]-th entry without a hit
    gets the [j]-th text that the translator returned; the texts beyond
    that are ignored, and the call raises (an IndexError) exactly when
    the translator returned fewer texts than there are entries without
    a hit. *)
Theorem merge_checks_no_position
    (translator : list str -> str -> Z -> run (list str))
    (texts : list str) (results : list task_result)
    (history_map : gmap str str) (entries : list SubtitleEntry)
    (target_language : str) (max_concurrency : Z)
    (translated_texts : list str) :
  length results = length texts ->
  Forall (fun e => translated_content e = []) entries ->
  (forall k t, history_map !! k = Some t -> t <> []) ->
  translator (content <$> misses history_map entries) target_language
    max_concurrency = Returns translated_texts ->
  (exists processed ordered,
     process_results texts 0 results = Some processed /\
     length processed = length results /\
     (forall i r, results !! i = Some r ->
        processed !! i
        = Some (match r with
                | Returned position result => (position, result)
                | Raised => (Z.of_nat i, texts !! i)
                end)) /\
     collect texts results = Some (snd <$> ordered) /\
     ordered ≡ₚ processed /\
     ascending fst ordered /\
     (forall k, filter (fun p => fst p = k) ordered
                = filter (fun p => fst p = k) processed)) /\
  ((length (misses history_map entries) <= length translated_texts)%nat ->
   exists done,
     translate_with_history translator history_map entries target_language
       max_concurrency = Returns done /\
     length (entries_after done) = length entries /\
     (forall i entry, entries !! i = Some entry ->
        entries_after done !! i
        = Some (set_translated_content
                  (match history_map !! strip (content entry) with
                   | Some translation => translation
                   | None =>
                       default []
                         (translated_texts
                            !! length (misses history_map (take i entries)))
                   end) entry)) /\
     stored done = translated_content <$> entries_after done /\
     dispatched done
     = (if bool_decide (misses history_map entries = []) then []
        else [content <$> misses history_map entries])) /\
  ((length translated_texts < length (misses history_map entries))%nat ->
   translate_with_history translator history_map entries target_language
     max_concurrency = Raises).
Proof.
  intros Hlen Hfresh Hfull Htranslator. split; [|split].
  - destruct (process_results_total texts results 0) as (processed & Hp & Hl);
      [lia|].
    exists processed, (sorted Z.ltb fst processed).
    split; [exact Hp|]. split; [exact Hl|].
    split; [exact (process_results_lookup texts results 0 processed Hp)|].
    split; [unfold collect; rewrite Hp; reflexivity|].
    split; [apply sorted_Permutation|].
    split; [apply ascending_sorted|].
    intros k. apply filter_sorted.
  - intros Henough. unfold translate_with_history.
    rewrite prepare_texts_spec.
    destruct (bool_decide_reflect (misses history_map entries = []))
      as [Hnone|Hsome].
    + rewrite Hnone. simpl. eexists. split; [reflexivity|]. simpl.
      split; [apply length_fmap|]. split; [|split; reflexivity].
      intros i entry Hi. rewrite list_lookup_fmap, Hi. simpl.
      unfold prepare_entry. rewrite history_lookup_lookup.
      destruct (history_map !! strip (content entry)) as [t|] eqn:Hlookup;
        [reflexivity|].
      exfalso. apply list_elem_of_lookup_2 in Hi.
      assert (entry ∈ misses history_map entries) as Hin.
      { apply list_elem_of_filter. split; [|exact Hi].
        rewrite history_lookup_lookup. exact Hlookup. }
      rewrite Hnone in Hin. by apply elem_of_nil in Hin.
    + rewrite bool_decide_eq_true_2
        by (destruct (misses history_map entries); [contradiction|discriminate]).
      rewrite Htranslator.
      destruct (update_results_enough translated_texts
                  (prepare_entry history_map <$> entries) 0)
        as (result & Hresult & _).
      { rewrite untranslated_after_prepare by assumption. lia. }
      rewrite Hresult.
      destruct (update_results_merge translated_texts history_map entries
                  Hfull Hfresh 0 result Hresult) as [Hlength Hat].
      eexists. split; [reflexivity|]. simpl.
      split; [exact Hlength|]. split; [exact Hat|]. split; reflexivity.
  - intros Hfew. unfold translate_with_history. rewrite prepare_texts_spec.
    rewrite bool_decide_eq_true_2
      by (destruct (misses history_map entries);
          [simpl in Hfew; lia | discriminate]).
    rewrite Htranslator.
    destruct (update_results translated_texts 0
                (prepare_entry history_map <$> entries)) as [result|] eqn:Hr;
      [|reflexivity].
    exfalso.
    pose proof (update_results_needs translated_texts _ 0 result
                  ltac:(lia) Hr) as Hneeds.
    rewrite untranslated_after_prepare in Hneeds by assumption. lia.
Qed.

Lemma merge_checks_no_position_witness :
  let texts := [py "a"; py "b"; py "c"] in
  let results :=
    [Returned 2 (Some (py "C")); Raised; Returned 2 (Some (py "A"))] in
  let history_map : gmap str str := {[ py "Hi" := py "Salut" ]} in
  let entries :=
    [entry_of 1 "Hello" ""; entry_of 2 " Hi " ""; entry_of 3 "World" ""] in
  collect texts results = Some [Some (py "b"); Some (py "C"); Some (py "A")] /\
  translate_with_history (dictionary_translator french) history_map entries
    (py "French") 5
  = Returns {| entries_after :=
                 [entry_of 1 "Hello" "Bonjour"; entry_of 2 " Hi " "Salut";
                  entry_of 3 "World" "Monde"];
               stored := [py "Bonjour"; py "Salut"; py "Monde"];
               dispatched := [[py "Hello"; py "World"]] |}.
Proof.
  intros texts results history_map entries.
  destruct (merge_checks_no_position (dictionary_translator french) texts
              results history_map entries (py "French") 5
              [py "Bonjour"; py "Monde"])
    as ((processed & ordered & _ & _ & _ & Hcollect & _) & Henough & _).
  - reflexivity.
  - repeat constructor.
  - intros k t Hk. subst history_map.
    apply lookup_singleton_Some in Hk as [_ <-]. discriminate.
  - reflexivity.
  - split; [reflexivity|].
    destruct Henough as (done & Hdone & _); [vm_compute; lia|].
    reflexivity.
Defined.

(** C5, as the claim has it, fails: two results that both carry the
    position 0, so that 0 comes twice and 1 is missing, are collected
    and returned without an error (the tasks of [translate_batch] never
    return such positions, so that the check the claim asks for would
    never fire; it is not there); and [translate_entries] takes three
    texts from a translator for the two texts it sent and returns,
    the third one dropped. *)
Lemma duplicate_position_is_accepted :
  let texts := [py "a"; py "b"] in
  let results := [Returned 0 (Some (py "A")); Returned 0 (Some (py "B"))] in
  process_results texts 0 results
    = Some [(0, Some (py "A")); (0, Some (py "B"))] /\
  collect texts results = Some [Some (py "A"); Some (py "B")] /\
  translate_entries (R := decimal_runtime)
    (fun _ _ _ => Returns [py "A"; py "B"; py "C"]) ∅
    [entry_of 1 "a" ""; entry_of 2 "b" ""] (py "French") 5 false None
  = Returns {| entries_after := [entry_of 1 "a" "A"; entry_of 2 "b" "B"];
               stored := [py "A"; py "B"];
               dispatched := [[py "a"; py "b"]] |}.
Proof. repeat split. Qed.

(** ** The round trip through the history file *)

(** C4: the round trip does not reuse anything. The file [hello_world]
    is translated, the merged result is saved, and the same file is
    translated again with the saved file as history: both texts are
    handed to the translator once more, because the saved translations
    are read back as part of the text of their entries and the mapping
    stays empty. *)
Theorem round_trip_translates_again :
  let fs : files := {[ in_cwd "input.srt" := hello_world ]} in
  exists first second,
    (parse_file (R := decimal_runtime) fs (py "input.srt")
       ≫= fun entries =>
            Some (translate_entries (R := decimal_runtime)
                    (dictionary_translator french) fs entries
                    (py "French") 5 false None))
      = Some (Returns first) /\
    stored first = [py "Bonjour"; py "Monde"] /\
    round_trip (R := decimal_runtime) (dictionary_translator french) fs
      (py "input.srt") (py "history.srt") (py "French") 5
      = Some (Returns second) /\
    dispatched second = [[py "Hello"; py "World"]] /\
    (fmap (M := list) content <$> parse_file (R := decimal_runtime)
       (files_after
          (save_translated_srt (R := decimal_runtime) (entries_after first)
             (py "history.srt") fs))
       (py "history.srt"))
      = Some [py "Hello" ++ [LF] ++ py "Bonjour";
              py "World" ++ [LF] ++ py "Monde"] /\
    load_history (R := decimal_runtime)
      (files_after
         (save_translated_srt (R := decimal_runtime) (entries_after first)
            (py "history.srt") fs))
      true (Some (py "history.srt")) = ∅.
Proof.
  intros fs. eexists _, _.
  split; [vm_compute; reflexivity|].
  split; [vm_compute; reflexivity|].
  split; [vm_compute; reflexivity|].
  split; [vm_compute; reflexivity|].
  split; [vm_compute; reflexivity|].
  apply load_history_empty.
Qed.

(* ===================================================================== *)
(** * Further properties                                                   *)
(* ===================================================================== *)

(** ** Trimming *)

Lemma lstrip_app_visible u c v :
  is_space c = false -> lstrip (u ++ c :: v) = lstrip u ++ c :: v.
Proof.
  intros Hc. induction u as [|a u IH]; simpl.
  - rewrite Hc. reflexivity.
  - destruct (is_space a); [exact IH | reflexivity].
Qed.

Lemma lstrip_visible c s :
  is_space c = false -> lstrip (c :: s) = c :: s.
Proof. intros Hc. simpl. rewrite Hc. reflexivity. Qed.

(** What [lstrip] leaves is empty or starts with a visible character. *)
Lemma lstrip_head s :
  lstrip s = [] \/ exists c t, lstrip s = c :: t /\ is_space c = false.
Proof.
  induction s as [|a s IH]; simpl; [left; reflexivity|].
  destruct (is_space a) eqn:Ha; [exact IH|].
  right. exists a, s. split; [reflexivity | exact Ha].
Qed.

Lemma lstrip_idempotent s : lstrip (lstrip s) = lstrip s.
Proof.
  destruct (lstrip_head s) as [->|(c & t & -> & Hc)]; [reflexivity|].
  apply lstrip_visible, Hc.
Qed.

(** Trimming the right end keeps a visible first character in place. *)
Lemma rstrip_visible_head c s :
  is_space c = false -> exists t, rstrip (c :: s) = c :: t.
Proof.
  intros Hc. unfold rstrip. simpl.
  rewrite lstrip_app_visible by exact Hc.
  rewrite rev_app_distr. simpl. eauto.
Qed.

(** [s.strip().strip() == s.strip()] *)
Lemma strip_idempotent s : strip (strip s) = strip s.
Proof.
  unfold strip.
  assert (lstrip (rstrip (lstrip s)) = rstrip (lstrip s)) as ->.
  { destruct (lstrip_head s) as [->|(c & t & -> & Hc)]; [reflexivity|].
    destruct (rstrip_visible_head c t Hc) as [t' ->].
    apply lstrip_visible, Hc. }
  unfold rstrip. rewrite rev_involutive, lstrip_idempotent. reflexivity.
Qed.

(** ** More on the translation client *)

Section translate_text_more.
Context {R : PyRuntime}.
Variable text : str.
Variable client : Z -> response.
Variable max_retries : Z.
Variable retry_delay : pyfloat.

Local Abbreviation loop :=
  (translate_text_loop text client max_retries retry_delay).

(** The loop, entered at [retry_count], when the first answer comes at
    the turn [k]. *)
Lemma translate_text_loop_first_answer (n : nat) retry_count k content :
  retry_count <= k <= max_retries ->
  Z.to_nat (k - retry_count) = n ->
  (forall j, retry_count <= j < k -> failed (client j) = true) ->
  client k = Content content ->
  loop retry_count
  = (Some (strip content),
     backoff_trace retry_delay n retry_count ++ [Post k]).
Proof.
  revert retry_count.
  induction n as [|n IH]; intros retry_count Hk Hn Hfail Hanswer.
  - assert (retry_count = k) as -> by lia.
    rewrite (translate_text_loop_answer _ _ _ _ k content) by (lia || done).
    reflexivity.
  - rewrite translate_text_loop_retry by (lia || apply Hfail; lia).
    rewrite (IH (retry_count + 1)); [reflexivity | lia | lia | | exact Hanswer].
    intros j Hj. apply Hfail. lia.
Qed.

(** The events of the loop, whatever the answers: some failed attempts,
    each followed by its sleep, and one last request. *)
Lemma translate_text_loop_events (m : nat) retry_count :
  retry_count <= max_retries ->
  Z.to_nat (max_retries - retry_count) = m ->
  exists n : nat,
    retry_count + Z.of_nat n <= max_retries /\
    (loop retry_count).2
    = backoff_trace retry_delay n retry_count
      ++ [Post (retry_count + Z.of_nat n)].
Proof.
  revert retry_count. induction m as [|m IH]; intros retry_count Hle Hm.
  - exists O. split; [lia|]. rewrite Z.add_0_r. simpl.
    destruct (client retry_count) as [c| |] eqn:Hc.
    + rewrite (translate_text_loop_answer _ _ _ _ _ c) by (lia || done).
      reflexivity.
    + rewrite translate_text_loop_exhausted by (lia || rewrite Hc; done).
      reflexivity.
    + rewrite translate_text_loop_exhausted by (lia || rewrite Hc; done).
      reflexivity.
  - destruct (client retry_count) as [c| |] eqn:Hc.
    + exists O. split; [lia|]. rewrite Z.add_0_r. simpl.
      rewrite (translate_text_loop_answer _ _ _ _ _ c) by (lia || done).
      reflexivity.
    + destruct (IH (retry_count + 1)) as (n & Hn & Hev); [lia | lia |].
      exists (S n). split; [lia|].
      rewrite translate_text_loop_retry by (lia || rewrite Hc; done).
      cbn [snd backoff_trace app]. rewrite Hev.
      replace (retry_count + 1 + Z.of_nat n)
        with (retry_count + Z.of_nat (S n)) by lia.
      reflexivity.
    + destruct (IH (retry_count + 1)) as (n & Hn & Hev); [lia | lia |].
      exists (S n). split; [lia|].
      rewrite translate_text_loop_retry by (lia || rewrite Hc; done).
      cbn [snd backoff_trace app]. rewrite Hev.
      replace (retry_count + 1 + Z.of_nat n)
        with (retry_count + Z.of_nat (S n)) by lia.
      reflexivity.
Qed.

Lemma requests_of_backoff_trace n k :
  length (filter (fun e => is_request e = true)
            (backoff_trace retry_delay n k)) = n.
Proof.
  revert k. induction n as [|n IH]; intros k; [reflexivity|].
  cbn [backoff_trace]. rewrite !filter_cons. simpl.
  f_equal. apply IH.
Qed.
End translate_text_more.

(** The loop sees of its client only the answers. *)
Lemma translate_text_loop_ext {R : PyRuntime} text client client'
    max_retries retry_delay (m : nat) : forall retry_count,
  (forall k, client k = client' k) ->
  Z.to_nat (max_retries + 1 - retry_count) = m ->
  translate_text_loop text client max_retries retry_delay retry_count
  = translate_text_loop text client' max_retries retry_delay retry_count.
Proof.
  induction m as [|m IH]; intros retry_count Hext Hm;
    rewrite (translate_text_loop_body text client),
            (translate_text_loop_body text client'), <- Hext.
  - assert ((retry_count <=? max_retries) = false) as -> by lia. reflexivity.
  - destruct (retry_count <=? max_retries) eqn:Hle; [|reflexivity].
    destruct (retry_count + 1 <=? max_retries) eqn:Hle'; [|reflexivity].
    rewrite (IH (retry_count + 1)) by (exact Hext || lia). reflexivity.
Qed.

(** X1: when the first [k] requests fail and request [k] is answered
    ([k <= max_retries]), [translate_text] returns the trimmed answer,
    which trimming again does not change; it has made exactly [k + 1]
    requests, with a sleep of [retry_delay * j] before the retry [j],
    and nothing after the answer. *)
Theorem first_answer_wins {R : PyRuntime}
    (text : str) (client : Z -> response) (max_retries : Z)
    (retry_delay : pyfloat) (k : Z) (content : str) :
  0 <= k <= max_retries ->
  (forall j, 0 <= j < k -> failed (client j) = true) ->
  client k = Content content ->
  translate_text text client max_retries retry_delay
  = (Some (strip content),
     backoff_trace retry_delay (Z.to_nat k) 0 ++ [Post k]) /\
  strip (strip content) = strip content.
Proof.
  intros Hk Hfail Hanswer. split; [|apply strip_idempotent].
  apply translate_text_loop_first_answer;
    [lia | f_equal; lia | exact Hfail | exact Hanswer].
Qed.

Lemma first_answer_wins_witness :
  translate_text (R := decimal_runtime) (py "Hello")
    (fun k => if k <? 2 then TimeoutError else Content (py " Bonjour "))
    3 (inject_Z 2)
  = (Some (strip (py " Bonjour ")),
     backoff_trace (R := decimal_runtime) (inject_Z 2) (Z.to_nat 2) 0
     ++ [Post 2]) /\
  strip (strip (py " Bonjour ")) = strip (py " Bonjour ").
Proof.
  apply (first_answer_wins (R := decimal_runtime) (py "Hello")
           (fun k => if k <? 2 then TimeoutError else Content (py " Bonjour "))
           3 (inject_Z 2) 2 (py " Bonjour ")).
  - lia.
  - intros j Hj. destruct (j <? 2) eqn:Hlt; [reflexivity | lia].
  - reflexivity.
Defined.

(** X2: whatever the service answers, [translate_text] with
    [max_retries >= 0] makes at most [max_retries + 1] requests: its
    events are [n <= max_retries] failed attempts, each followed by its
    sleep, and one last request, after which it does not sleep. *)
Theorem requests_are_bounded {R : PyRuntime}
    (text : str) (client : Z -> response) (max_retries : Z)
    (retry_delay : pyfloat) :
  0 <= max_retries ->
  let events := (translate_text text client max_retries retry_delay).2 in
  exists n : nat,
    Z.of_nat n <= max_retries /\
    events = backoff_trace retry_delay n 0 ++ [Post (Z.of_nat n)] /\
    length (filter (fun e => is_request e = true) events) = S n /\
    length events = (2 * n + 1)%nat.
Proof.
  intros Hmax events. subst events. unfold translate_text.
  destruct (translate_text_loop_events text client max_retries retry_delay
              (Z.to_nat (max_retries - 0)) 0) as (n & Hn & Hev);
    [lia | reflexivity |].
  exists n. rewrite Z.add_0_l in Hev. split; [lia|]. split; [exact Hev|].
  rewrite Hev. split.
  - rewrite filter_app, length_app, requests_of_backoff_trace.
    rewrite filter_cons, filter_nil. simpl. lia.
  - rewrite length_app. simpl.
    assert (forall m k, length (backoff_trace retry_delay m k) = (2 * m)%nat)
      as Hlen.
    { induction m as [|m IH]; intros k'; [reflexivity|].
      simpl. rewrite IH. lia. }
    rewrite Hlen. lia.
Qed.

Lemma requests_are_bounded_witness :
  let events :=
    (translate_text (R := decimal_runtime) (py "Hello")
       (fun k => if k <? 1 then Error else Content (py "Bonjour"))
       3 (inject_Z 2)).2 in
  exists n : nat,
    Z.of_nat n <= 3 /\
    events = backoff_trace (R := decimal_runtime) (inject_Z 2) n 0
             ++ [Post (Z.of_nat n)] /\
    length (filter (fun e => is_request e = true) events) = S n /\
    length events = (2 * n + 1)%nat.
Proof.
  apply (requests_are_bounded (R := decimal_runtime) (py "Hello")
           (fun k => if k <? 1 then Error else Content (py "Bonjour"))
           3 (inject_Z 2)).
  lia.
Defined.

(** ** More on the dispatcher *)

(** X3: in a batch with at least one permit, a unit none of whose four
    requests is answered (and whose work does not raise) ends with its
    own text, unchanged, at its position of the result. *)
Theorem unanswered_unit_keeps_its_text {R : PyRuntime}
    (env : environment) (texts : list str) (target_language : str)
    (max_concurrency : Z) (i : nat) (text : str) :
  1 <= max_concurrency ->
  texts !! i = Some text ->
  fails env i = false ->
  (forall k, 0 <= k <= default_max_retries ->
     failed (responses env target_language i k) = true) ->
  exists translated,
    translate_batch env texts target_language max_concurrency
      = Returns translated /\
    translated !! i = Some (Some text).
Proof.
  intros HK Ht Hfails Hall.
  exists (imap (outcome env target_language) texts).
  split; [apply translate_batch_returns, HK|].
  rewrite list_lookup_imap, Ht. simpl. unfold outcome. rewrite Hfails.
  destruct (translate_text_loop_returns text
              (responses env target_language i) default_max_retries float_2_0
              (Z.to_nat (default_max_retries - 0)) 0)
    as (result & Hresult & Htext);
    [unfold default_max_retries; lia | reflexivity |].
  unfold translate_text. rewrite Hresult, (Htext Hall). reflexivity.
Qed.

Lemma unanswered_unit_keeps_its_text_witness :
  let env := answering [py "Un"] in
  let texts := [py "One"; py " Two "] in
  exists translated,
    translate_batch (R := decimal_runtime) env texts (py "French") 1
      = Returns translated /\
    translated !! 1%nat = Some (Some (py " Two ")).
Proof.
  intros env texts.
  apply (unanswered_unit_keeps_its_text (R := decimal_runtime) env texts
           (py "French") 1 1 (py " Two ")).
  - lia.
  - reflexivity.
  - reflexivity.
  - intros k Hk. reflexivity.
Defined.

(** X4: the result of a unit depends on nothing but the unit: two
    batches, of whatever other texts, sizes and numbers of permits, that
    agree on the text at position [i], on the answers to its requests
    and on whether its work fails, have the same result at position
    [i]. *)
Theorem units_do_not_interfere {R : PyRuntime}
    (env env' : environment) (texts texts' : list str)
    (target_language target_language' : str)
    (max_concurrency max_concurrency' : Z) (i : nat) (text : str) :
  1 <= max_concurrency ->
  1 <= max_concurrency' ->
  texts !! i = Some text ->
  texts' !! i = Some text ->
  (forall k, responses env target_language i k
             = responses env' target_language' i k) ->
  fails env i = fails env' i ->
  exists translated translated',
    translate_batch env texts target_language max_concurrency
      = Returns translated /\
    translate_batch env' texts' target_language' max_concurrency'
      = Returns translated' /\
    translated !! i = translated' !! i.
Proof.
  intros HK HK' Ht Ht' Hresp Hfails.
  exists (imap (outcome env target_language) texts),
         (imap (outcome env' target_language') texts').
  split; [apply translate_batch_returns, HK|].
  split; [apply translate_batch_returns, HK'|].
  rewrite !list_lookup_imap, Ht, Ht'. simpl. f_equal.
  unfold outcome, translate_text. rewrite Hfails.
  rewrite (translate_text_loop_ext text _
             (responses env' target_language' i) _ _
             (Z.to_nat (default_max_retries + 1 - 0)) 0 Hresp eq_refl).
  reflexivity.
Qed.

Lemma units_do_not_interfere_witness :
  exists translated translated',
    translate_batch (R := decimal_runtime) (answering [py "Un"; py "Deux"])
      [py "One"; py "Two"] (py "French") 1 = Returns translated /\
    translate_batch (R := decimal_runtime)
      (with_failure 0 (answering [py "Eins"; py "Deux"; py "Drei"]))
      [py "Three"; py "Two"; py "One"] (py "German") 5
      = Returns translated' /\
    translated !! 1%nat = translated' !! 1%nat.
Proof.
  apply (units_do_not_interfere (R := decimal_runtime)
           (answering [py "Un"; py "Deux"])
           (with_failure 0 (answering [py "Eins"; py "Deux"; py "Drei"]))
           [py "One"; py "Two"] [py "Three"; py "Two"; py "One"]
           (py "French") (py "German") 1 5 1 (py "Two")).
  - lia.
  - lia.
  - reflexivity.
  - reflexivity.
  - intros k. reflexivity.
  - reflexivity.
Defined.

Section dispatcher_more.
Context {R : PyRuntime}.
Variable env : environment.
Variable texts : list str.
Variable target_language : str.

Lemma inside_all_done s : all_done s -> inside s = O.
Proof.
  unfold all_done, inside. induction 1 as [|p l Hp Hl IH]; [reflexivity|].
  rewrite filter_cons. destruct p; try discriminate Hp. simpl. exact IH.
Qed.

Lemma weight_start max_concurrency :
  weight (start texts max_concurrency) = (8 * length texts)%nat.
Proof.
  unfold weight, start. simpl.
  induction (length texts) as [|n IH]; [reflexivity|].
  simpl replicate. cbn [sum_list_with]. rewrite IH.
  change (phase_weight Queued) with 8%nat. lia.
Qed.

Lemma nsteps_weight n : forall s s',
  nsteps (step env texts target_language) n s s' ->
  (n + weight s' <= weight s)%nat.
Proof.
  induction n as [|n IH]; intros s s' Hrun.
  - inversion Hrun; subst. lia.
  - inversion Hrun as [|? ? s1 ? Hstep Hrest]; subst.
    apply step_weight in Hstep. apply IH in Hrest. lia.
Qed.

Lemma start_is_stuck s :
  step env texts target_language (start texts 0) s -> False.
Proof.
  intros [i [Hstep|Hstep]].
  - rewrite no_permit_no_step in Hstep. discriminate.
  - unfold abort_task, start in Hstep. simpl in Hstep.
    destruct (texts !! i) as [text|]; [|discriminate]. simpl in Hstep.
    destruct (replicate (length texts) Queued !! i) as [p|] eqn:Hp;
      [|discriminate].
    apply lookup_replicate in Hp as [-> _]. simpl in Hstep.
    rewrite andb_false_r in Hstep. discriminate.
Qed.
End dispatcher_more.

(** X5: with [max_concurrency = 0] a batch that is not empty never
    completes: no task can ever take a step, so every state the batch
    can be in is its first state, in which no task is done. *)
Theorem no_permit_never_completes {R : PyRuntime}
    (env : environment) (texts : list str) (target_language : str)
    (s : dispatcher) :
  texts <> [] ->
  reachable env texts target_language 0 s ->
  s = start texts 0 /\ ~ all_done s /\
  forall s', ~ step env texts target_language s s'.
Proof.
  intros Hne Hreach. unfold reachable in Hreach.
  assert (s = start texts 0) as ->.
  { eapply (rtc_ind_r (fun s => s = start texts 0)); [| |exact Hreach].
    - reflexivity.
    - intros s1 s2 _ Hstep ->. exfalso.
      exact (start_is_stuck env texts target_language s2 Hstep). }
  split; [reflexivity|]. split.
  - unfold all_done, start. simpl. destruct texts as [|t ts]; [done|].
    simpl. intros Hall. inversion Hall as [|? ? Hq _]. discriminate Hq.
  - intros s' Hstep. exact (start_is_stuck env texts target_language s' Hstep).
Qed.

Lemma no_permit_never_completes_witness :
  let s := start [py "Hello"] 0 in
  s = start [py "Hello"] 0 /\ ~ all_done s /\
  forall s', ~ step (answering [py "Bonjour"]) [py "Hello"] (py "French") s s'.
Proof.
  intros s.
  apply (no_permit_never_completes (R := decimal_runtime)
           (answering [py "Bonjour"]) [py "Hello"] (py "French") s).
  - discriminate.
  - apply rtc_refl.
Defined.

(** X6: no permit is lost. At every moment of a batch the counter of
    the semaphore is [max_concurrency] less the number of tasks inside,
    and once all tasks are done, units that failed included, it is
    [max_concurrency] again. *)
Theorem permits_come_back {R : PyRuntime}
    (env : environment) (texts : list str) (target_language : str)
    (max_concurrency : Z) (s : dispatcher) :
  0 <= max_concurrency ->
  reachable env texts target_language max_concurrency s ->
  permits s = max_concurrency - Z.of_nat (inside s) /\
  (all_done s -> permits s = max_concurrency).
Proof.
  intros HK Hreach.
  destruct (invariant_reachable env texts target_language max_concurrency s
              HK Hreach) as [_ _ Hbal _].
  split; [lia|]. intros Hdone. rewrite (inside_all_done s Hdone) in Hbal. lia.
Qed.

Lemma permits_come_back_witness :
  let env := with_failure 1 (answering [py "Un"; py "Deux"]) in
  let texts := [py "One"; py "Two"] in
  let s := run_schedule env texts (py "French") [0; 1; 0]%nat (start texts 2) in
  abort_task env texts 1 s
  = Some {| permits := 2;
            tasks := [Done (Returned 0 (Some (py "Un"))); Done Raised] |} /\
  forall s', abort_task env texts 1 s = Some s' ->
    permits s' = 2 - Z.of_nat (inside s') /\ (all_done s' -> permits s' = 2).
Proof.
  intros env texts s. split; [reflexivity|]. intros s' Hs'.
  apply (permits_come_back (R := decimal_runtime) env texts (py "French") 2 s').
  - lia.
  - eapply rtc_l; [exists 0%nat; left; reflexivity|].
    eapply rtc_l; [exists 1%nat; left; reflexivity|].
    eapply rtc_l; [exists 0%nat; left; reflexivity|].
    eapply rtc_l; [exists 1%nat; right; exact Hs'|].
    apply rtc_refl.
Defined.

(** X7: with at least one permit, a batch of [N] texts is over after at
    most [8 * N] steps of its tasks, whatever the interleaving: a run
    from the first state has at most [8 * N] steps (for each unit one
    step to enter, at most four requests and three sleeps), a state in
    which some task is not done has a next step, and every run goes on
    to a state in which all tasks are done, within the [8 * N] steps. *)
Theorem batch_takes_at_most_eight_steps_per_unit {R : PyRuntime}
    (env : environment) (texts : list str) (target_language : str)
    (max_concurrency : Z) (n : nat) (s : dispatcher) :
  1 <= max_concurrency ->
  nsteps (step env texts target_language) n (start texts max_concurrency) s ->
  (n <= 8 * length texts)%nat /\
  (~ all_done s -> exists s', step env texts target_language s s') /\
  exists m s',
    nsteps (step env texts target_language) m s s' /\ all_done s' /\
    (n + m <= 8 * length texts)%nat.
Proof.
  intros HK Hrun.
  pose proof (invariant_reachable env texts target_language max_concurrency s
                ltac:(lia) (rtc_nsteps_2 _ _ _ Hrun)) as Hinv.
  pose proof (nsteps_weight env texts target_language n _ _ Hrun) as Hn.
  rewrite weight_start in Hn.
  split; [lia|]. split.
  - exact (progress env texts target_language max_concurrency s HK Hinv).
  - destruct (runs_to_completion env texts target_language max_concurrency HK
                (weight s) s eq_refl Hinv) as (s' & Hrest & Hdone).
    apply rtc_nsteps_1 in Hrest as [m Hrest].
    exists m, s'. split; [exact Hrest|]. split; [exact Hdone|].
    pose proof (nsteps_weight env texts target_language (n + m) _ _
                  (nsteps_trans _ _ _ _ _ Hrun Hrest)) as Hnm.
    rewrite weight_start in Hnm. lia.
Qed.

Lemma batch_takes_at_most_eight_steps_per_unit_witness :
  let env := answering [py "Un"] in
  let texts := [py "One"; py "Two"] in
  let s := run_schedule env texts (py "French") [0; 1; 0]%nat (start texts 2) in
  (3 <= 8 * length texts)%nat /\
  (~ all_done s -> exists s', step env texts (py "French") s s') /\
  exists m s',
    nsteps (step env texts (py "French")) m s s' /\ all_done s' /\
    (3 + m <= 8 * length texts)%nat.
Proof.
  intros env texts s.
  apply (batch_takes_at_most_eight_steps_per_unit (R := decimal_runtime)
           env texts (py "French") 2 3 s).
  - lia.
  - eapply nsteps_l; [exists 0%nat; left; reflexivity|].
    eapply nsteps_l; [exists 1%nat; left; reflexivity|].
    eapply nsteps_l; [exists 0%nat; left; reflexivity|].
    apply nsteps_O.
Defined.

(** ** The constructor of the translator *)

Lemma lstrip_char_spec c s :
  exists n, s = replicate n c ++ lstrip_char c s /\
            head (lstrip_char c s) <> Some c.
Proof.
  induction s as [|a s (n & Hs & Hhead)].
  - exists O. split; [reflexivity | discriminate].
  - simpl. destruct (N.eqb_spec a c) as [->|Hne].
    + exists (S n). split; [simpl; congruence | exact Hhead].
    + exists O. split; [reflexivity|]. simpl. congruence.
Qed.

Lemma last_rev_head (l : str) : last (rev l) = head l.
Proof.
  destruct l as [|a l]; [reflexivity|]. simpl. apply last_snoc.
Qed.

Lemma rev_replicate (n : nat) (c : N) : rev (replicate n c) = replicate n c.
Proof.
  induction n as [|n IH]; [reflexivity|].
  simpl. rewrite IH. clear IH.
  induction n as [|n IH]; [reflexivity|]. simpl. congruence.
Qed.

Lemma rstrip_char_spec c s :
  exists n, s = rstrip_char c s ++ replicate n c /\
            last (rstrip_char c s) <> Some c.
Proof.
  unfold rstrip_char.
  destruct (lstrip_char_spec c (rev s)) as (n & Hs & Hhead).
  exists n. split.
  - rewrite <- (rev_involutive s) at 1. rewrite Hs at 1.
    rewrite rev_app_distr, rev_replicate. reflexivity.
  - rewrite last_rev_head. exact Hhead.
Qed.

(** X8: the constructor raises exactly when neither the argument nor the
    variable [OPENAI_API_KEY] holds a non-empty key. A non-empty
    argument is the key whatever the environment has; an absent or
    empty one leaves the choice to the environment; and the
    Authorization header carries the chosen key. *)
Theorem translator_needs_a_key (environ : gmap str str) (key : option str)
    (base : str) :
  let variable := environ !! py "OPENAI_API_KEY" in
  let absent (k : option str) := k = None \/ k = Some [] in
  (OpenAITranslator_init environ key base = None
   <-> absent key /\ absent variable) /\
  (forall translator,
     OpenAITranslator_init environ key base = Some translator ->
     api_key translator <> [] /\
     (absent key -> variable = Some (api_key translator)) /\
     (~ absent key -> key = Some (api_key translator)) /\
     headers translator !! py "Authorization"
     = Some (py "Bearer " ++ api_key translator)).
Proof.
  intros variable absent. unfold OpenAITranslator_init, key_or_environment.
  fold variable. split.
  - split.
    + intros Hnone. destruct key as [[|c k]|]; simpl in Hnone.
      * split; [right; reflexivity|].
        destruct variable as [[|c k]|]; [right|discriminate|left]; reflexivity.
      * discriminate.
      * split; [left; reflexivity|].
        destruct variable as [[|c k]|]; [right|discriminate|left]; reflexivity.
    + intros [[->| ->] [->| ->]]; reflexivity.
  - intros translator Hsome.
    destruct key as [[|c k]|]; simpl in Hsome.
    + destruct variable as [[|c k]|] eqn:Hvar; simpl in Hsome; simplify_eq.
      cbn [api_key headers].
      split; [discriminate|]. split; [reflexivity|].
      split; [|apply lookup_insert_eq].
      intros Habs. exfalso. apply Habs. right. reflexivity.
    + simplify_eq. cbn [api_key headers].
      split; [discriminate|]. split; [|split; [reflexivity|]].
      * intros [Habs|Habs]; discriminate Habs.
      * apply lookup_insert_eq.
    + destruct variable as [[|c k]|] eqn:Hvar; simpl in Hsome; simplify_eq.
      cbn [api_key headers].
      split; [discriminate|]. split; [reflexivity|].
      split; [|apply lookup_insert_eq].
      intros Habs. exfalso. apply Habs. left. reflexivity.
Qed.

(** X9: the constructor takes every trailing slash off the base URL and
    nothing else: the argument is the stored base followed by slashes
    only, the stored base does not end in a slash, and so the URL of a
    request has exactly the slash of [/chat/completions] after it. *)
Theorem api_base_loses_its_trailing_slashes (environ : gmap str str)
    (key : option str) (base : str) (translator : OpenAITranslator) :
  OpenAITranslator_init environ key base = Some translator ->
  (exists n, base = api_base translator ++ replicate n 47%N) /\
  last (api_base translator) <> Some 47%N /\
  rstrip_char 47 (api_base translator) = api_base translator /\
  completions_url translator
  = api_base translator ++ py "/chat/completions".
Proof.
  unfold OpenAITranslator_init. intros Hinit.
  destruct (key_or_environment key environ) as [k|]; [|discriminate].
  destruct (truthy k); [|discriminate]. simplify_eq. simpl.
  destruct (rstrip_char_spec 47 base) as (n & Hbase & Hlast).
  split; [exists n; exact Hbase|]. split; [exact Hlast|].
  split; [|reflexivity].
  destruct (rstrip_char_spec 47 (rstrip_char 47 base)) as (m & Hm & _).
  destruct m as [|m]; [rewrite app_nil_r in Hm; congruence|].
  exfalso. apply Hlast. rewrite Hm.
  change (replicate (S m) 47%N) with (47%N :: replicate m 47%N).
  clear. induction m as [|m IH].
  - simpl. apply last_snoc.
  - replace (47%N :: replicate (S m) 47%N)
      with ((47%N :: replicate m 47%N) ++ [47%N]).
    + rewrite app_assoc. apply last_snoc.
    + simpl. f_equal. clear. induction m as [|m IH]; [reflexivity|].
      simpl. congruence.
Qed.

Lemma api_base_loses_its_trailing_slashes_witness :
  let translator :=
    {| api_key := py "sk-1";
       api_base := py "https://api.chatnio.net/v1";
       headers := {[ py "Authorization" := py "Bearer sk-1";
                     py "Content-Type" := py "application/json" ]} |} in
  (exists n, py "https://api.chatnio.net/v1//"
             = api_base translator ++ replicate n 47%N) /\
  last (api_base translator) <> Some 47%N /\
  rstrip_char 47 (api_base translator) = api_base translator /\
  completions_url translator
  = api_base translator ++ py "/chat/completions".
Proof.
  intros translator.
  apply (api_base_loses_its_trailing_slashes
           {[ py "OPENAI_API_KEY" := py "sk-1" ]} None
           (py "https://api.chatnio.net/v1//") translator).
  reflexivity.
Defined.

Lemma translator_needs_a_key_witness :
  let environ : gmap str str := {[ py "OPENAI_API_KEY" := py "sk-env" ]} in
  let base := py "https://api.openai.com/v1" in
  exists translator,
    OpenAITranslator_init environ (Some []) base = Some translator /\
    api_key translator <> [] /\
    (Some ([] : str) = None \/ Some ([] : str) = Some [] ->
     environ !! py "OPENAI_API_KEY" = Some (api_key translator)) /\
    (~ (Some ([] : str) = None \/ Some ([] : str) = Some []) ->
     Some [] = Some (api_key translator)) /\
    headers translator !! py "Authorization"
    = Some (py "Bearer " ++ api_key translator).
Proof.
  intros environ base. eexists. split; [reflexivity|].
  apply (proj2 (translator_needs_a_key environ (Some []) base)).
  reflexivity.
Defined.

(** ** The names of the files *)




(** ** Paths and files *)















(** ** The separate files *)

(** X10: the separate files are merged files: the file of the originals
    is the merged file of the entries without their translations, and
    the file of the translations, written only when an entry has one
    and the first file could be written, is the merged file of the
    translated entries with the translation in the place of the text. *)
Theorem separate_files_are_merged_files {R : PyRuntime}
    (source_language : str) (entries : list SubtitleEntry)
    (output_path : str) (target_language : option str) (fs : files) :
  let translated :=
    filter (fun entry => truthy (translated_content entry) = true) entries in
  save_separately source_language entries output_path target_language fs
  = match save_translated_srt (without_translation <$> entries)
            (original_path source_language output_path) fs with
    | Saved originals =>
        if bool_decide (translated = []) then Saved originals
        else save_translated_srt (translation_as_content <$> translated)
               (translated_path output_path target_language) originals
    | Failed fs' => Failed fs'
    end /\
  (Forall (fun entry => translated_content entry = []) entries ->
   save_separately source_language entries output_path target_language fs
   = save_translated_srt entries
       (original_path source_language output_path) fs).
Proof.
  intros translated.
  assert (forall l, concat (write_original <$> l)
                    = concat (map write_entry (without_translation <$> l)))
    as Horiginal.
  { induction l as [|e l IH]; [reflexivity|].
    change (write_original e ++ concat (write_original <$> l)
            = write_entry (without_translation e)
              ++ concat (map write_entry (without_translation <$> l))).
    rewrite IH. reflexivity. }
  assert (forall l,
            concat (write_translation <$> l)
            = concat (map write_entry (translation_as_content <$> l)))
    as Htranslation.
  { induction l as [|e l IH]; [reflexivity|].
    change (write_translation e ++ concat (write_translation <$> l)
            = write_entry (translation_as_content e)
              ++ concat (map write_entry (translation_as_content <$> l))).
    rewrite IH. reflexivity. }
  assert (existsb (fun entry => truthy (translated_content entry)) entries
          = negb (bool_decide (translated = []))) as Hany.
  { subst translated. clear. induction entries as [|e l IH]; [reflexivity|].
    simpl. destruct (truthy (translated_content e)) eqn:He.
    - rewrite filter_cons_True by exact He. reflexivity.
    - rewrite filter_cons_False by congruence. exact IH. }
  split.
  - unfold save_separately, save_translated_srt. rewrite Hany, Horiginal.
    destruct (write_text _ _ fs) as [fs1|]; [|reflexivity].
    destruct (bool_decide (translated = [])); simpl; [reflexivity|].
    rewrite Htranslation.
    destruct (write_text _ _ fs1); reflexivity.
  - intros Hfresh. unfold save_separately, save_translated_srt. rewrite Hany.
    assert (translated = []) as ->.
    { subst translated. clear -Hfresh.
      induction Hfresh as [|e l He _ IH]; [reflexivity|].
      rewrite filter_cons_False by (rewrite He; discriminate). exact IH. }
    rewrite bool_decide_eq_true_2 by reflexivity. simpl.
    assert (concat (write_original <$> entries)
            = concat (map write_entry entries)) as ->.
    { clear -Hfresh. induction Hfresh as [|e l He _ IH]; [reflexivity|].
      change (write_original e ++ concat (write_original <$> l)
              = write_entry e ++ concat (map write_entry l)).
      rewrite IH. unfold write_original, write_entry. rewrite He.
      reflexivity. }
    destruct (write_text _ _ fs); reflexivity.
Qed.

Lemma separate_files_are_merged_files_witness :
  let entries := [entry_of 1 "Hello" ""; entry_of 2 "World" ""] in
  Forall (fun entry => translated_content entry = []) entries /\
  save_separately (R := decimal_runtime) (py "en") entries (py "film.srt")
    (Some (py "fr")) ∅
  = save_translated_srt (R := decimal_runtime) entries
      (py "film_en_original.srt") ∅.
Proof.
  intros entries.
  assert (Forall (fun entry => translated_content entry = []) entries)
    as Hfresh by (repeat constructor).
  split; [exact Hfresh|].
  exact (proj2 (separate_files_are_merged_files (R := decimal_runtime)
                  (py "en") entries (py "film.srt") (Some (py "fr")) ∅)
           Hfresh).
Defined.





(** ** Splitting a merged file *)





(** ** The files that a run writes *)




(** ** What translate_entries does to the entries *)

Lemma update_results_same_subtitle translated_texts entries :
  forall j result,
    update_results translated_texts j entries = Some result ->
    Forall2 (fun e e' =>
               same_subtitle e e' /\
               (truthy (translated_content e) = true -> e' = e))
            entries result.
Proof.
  induction entries as [|e entries IH]; intros j result Hresult;
    simpl in Hresult.
  - injection Hresult as <-. constructor.
  - destruct (truthy (translated_content e)) eqn:He.
    + destruct (update_results translated_texts j entries) as [rest|] eqn:Hrest;
        [|discriminate].
      simpl in Hresult. injection Hresult as <-. constructor.
      * split; [repeat split|reflexivity].
      * exact (IH _ _ Hrest).
    + destruct (translated_texts !! j) as [text|]; [|discriminate].
      simpl in Hresult.
      destruct (update_results translated_texts (S j) entries)
        as [rest|] eqn:Hrest; [|discriminate].
      simpl in Hresult. injection Hresult as <-. constructor.
      * split; [repeat split|intros Ht; congruence].
      * exact (IH _ _ Hrest).
Qed.

Lemma update_results_fresh translated_texts entries :
  Forall (fun e => translated_content e = []) entries ->
  forall j,
    (length entries + j <= length translated_texts)%nat ->
    update_results translated_texts j entries
    = Some (zip_with set_translated_content (drop j translated_texts) entries).
Proof.
  induction 1 as [|e entries He _ IH]; intros j Hlen; simpl.
  - destruct (drop j translated_texts); reflexivity.
  - rewrite He. simpl in *.
    destruct (lookup_lt_is_Some_2 translated_texts j) as [text Htext]; [lia|].
    rewrite Htext. simpl. rewrite IH by lia. simpl.
    rewrite (drop_S _ _ _ Htext). reflexivity.
Qed.

Lemma update_results_translated translated_texts entries j :
  Forall (fun e => translated_content e <> []) entries ->
  update_results translated_texts j entries = Some entries.
Proof.
  induction 1 as [|e entries He _ IH]; simpl; [reflexivity|].
  destruct (translated_content e) as [|c t]; [contradiction|]. simpl.
  rewrite IH. reflexivity.
Qed.

Lemma translated_content_zip_with (translated_texts : list str) entries :
  translated_content <$> zip_with set_translated_content translated_texts entries
  = take (length entries) translated_texts.
Proof.
  revert translated_texts.
  induction entries as [|e entries IH]; intros [|t translated_texts];
    try reflexivity.
  simpl. rewrite <- IH. reflexivity.
Qed.

Section translate_entries_facts.
Context {R : PyRuntime}.
Variable translator : list str -> str -> Z -> run (list str).
Variable fs : files.
Variable target_language : str.
Variable max_concurrency : Z.
Variable use_history : bool.
Variable history_file : option str.

Lemma translate_entries_unfold entries :
  translate_entries translator fs entries target_language max_concurrency
    use_history history_file
  = if bool_decide (content <$> entries ≠ [])
    then match translator (content <$> entries) target_language
                 max_concurrency with
         | Returns translated_texts =>
             match update_results translated_texts O entries with
             | Some entries' =>
                 Returns {| entries_after := entries';
                            stored := translated_content <$> entries';
                            dispatched := [content <$> entries] |}
             | None => Raises
             end
         | Raises => Raises
         | Blocks => Blocks
         end
    else Returns {| entries_after := entries;
                    stored := translated_content <$> entries;
                    dispatched := [] |}.
Proof.
  unfold translate_entries, translate_with_history.
  rewrite load_history_empty, prepare_texts_empty. reflexivity.
Qed.
End translate_entries_facts.

(** X14: a call of [translate_entries] that returns has changed nothing
    of an entry but its translation, and not even that where there was
    one; the list it stores is the translations of the entries as they
    are then; and it has sent the text of every entry, in the order of
    the entries and in one batch, whatever translations the entries
    carried and whatever history was asked for. *)
Theorem translate_entries_fills_translations_only {R : PyRuntime}
    (translator : list str -> str -> Z -> run (list str))
    (fs : files) (entries : list SubtitleEntry)
    (target_language : str) (max_concurrency : Z) (use_history : bool)
    (history_file : option str) (done : translated_entries) :
  translate_entries translator fs entries target_language max_concurrency
    use_history history_file = Returns done ->
  Forall2 (fun e e' =>
             same_subtitle e e' /\
             (truthy (translated_content e) = true -> e' = e))
          entries (entries_after done) /\
  stored done = translated_content <$> entries_after done /\
  dispatched done
  = match entries with [] => [] | _ :: _ => [content <$> entries] end.
Proof.
  rewrite translate_entries_unfold. intros Hrun.
  destruct entries as [|e entries'] eqn:Hentries.
  - simpl in Hrun. injection Hrun as <-. simpl.
    split; [constructor|]. split; reflexivity.
  - rewrite <- Hentries in *.
    rewrite bool_decide_eq_true_2 in Hrun by (rewrite Hentries; discriminate).
    destruct (translator _ _ _) as [translated_texts| |]; try discriminate.
    destruct (update_results translated_texts 0 entries) as [result|] eqn:Hr;
      [|discriminate].
    injection Hrun as <-. simpl.
    split; [exact (update_results_same_subtitle _ _ _ _ Hr)|].
    split; reflexivity.
Qed.

Lemma translate_entries_fills_translations_only_witness :
  let entries := [entry_of 1 "Hello" ""; entry_of 2 "World" "Welt"] in
  let done :=
    {| entries_after := [entry_of 1 "Hello" "Bonjour"; entry_of 2 "World" "Welt"];
       stored := [py "Bonjour"; py "Welt"];
       dispatched := [[py "Hello"; py "World"]] |} in
  Forall2 (fun e e' =>
             same_subtitle e e' /\
             (truthy (translated_content e) = true -> e' = e))
          entries (entries_after done) /\
  stored done = translated_content <$> entries_after done /\
  dispatched done = [content <$> entries].
Proof.
  intros entries done.
  apply (translate_entries_fills_translations_only (R := decimal_runtime)
           (dictionary_translator french) ∅ entries (py "French") 5 true
           (Some (py "history.srt")) done).
  reflexivity.
Defined.

(** X15: entries without a translation take the results of the
    translator in order: when it returns at least as many results as
    there are entries, the [i]-th entry gets the [i]-th result (an empty
    one too) and the results beyond the entries are dropped; when it
    returns fewer, the call raises. *)
Theorem fresh_entries_take_the_results_in_order {R : PyRuntime}
    (translator : list str -> str -> Z -> run (list str))
    (fs : files) (entries : list SubtitleEntry)
    (target_language : str) (max_concurrency : Z) (use_history : bool)
    (history_file : option str) (translated_texts : list str) :
  Forall (fun e => translated_content e = []) entries ->
  entries <> [] ->
  translator (content <$> entries) target_language max_concurrency
    = Returns translated_texts ->
  translate_entries translator fs entries target_language max_concurrency
    use_history history_file
  = if (length entries <=? length translated_texts)%nat
    then Returns
           {| entries_after :=
                zip_with set_translated_content translated_texts entries;
              stored := take (length entries) translated_texts;
              dispatched := [content <$> entries] |}
    else Raises.
Proof.
  intros Hfresh Hne Htranslator. rewrite translate_entries_unfold.
  rewrite bool_decide_eq_true_2
    by (destruct entries; [contradiction|discriminate]).
  rewrite Htranslator.
  destruct (Nat.leb_spec (length entries) (length translated_texts))
    as [Hle|Hlt].
  - rewrite (update_results_fresh _ _ Hfresh 0) by lia.
    rewrite drop_0, translated_content_zip_with. reflexivity.
  - destruct (update_results translated_texts 0 entries) as [result|] eqn:Hr;
      [|reflexivity].
    exfalso.
    pose proof (update_results_needs translated_texts entries 0 result
                  ltac:(lia) Hr) as Hneeds.
    assert (untranslated entries = entries) as Hall.
    { unfold untranslated. clear -Hfresh.
      induction Hfresh as [|e l He _ IH]; [reflexivity|].
      rewrite filter_cons_True by (rewrite He; reflexivity).
      rewrite IH. reflexivity. }
    rewrite Hall in Hneeds. lia.
Qed.

Lemma fresh_entries_take_the_results_in_order_witness :
  let entries := [entry_of 1 "Hello" ""; entry_of 2 "Moon" ""] in
  translate_entries (R := decimal_runtime) (dictionary_translator french) ∅
    entries (py "French") 5 false None
  = Returns {| entries_after :=
                 [entry_of 1 "Hello" "Bonjour"; entry_of 2 "Moon" "Moon"];
               stored := [py "Bonjour"; py "Moon"];
               dispatched := [[py "Hello"; py "Moon"]] |}.
Proof.
  intros entries.
  apply (fresh_entries_take_the_results_in_order (R := decimal_runtime)
           (dictionary_translator french) ∅ entries (py "French") 5 false None
           [py "Bonjour"; py "Moon"]).
  - repeat constructor.
  - discriminate.
  - reflexivity.
Defined.

(** X16: entries that all have a translation keep it through a further
    call of [translate_entries], for another language say: every text
    is sent to the translator again, and whatever it returns, be it
    nothing at all, is thrown away; the list stored for the new language
    is the translations that were there. *)
Theorem translated_entries_are_sent_but_kept {R : PyRuntime}
    (translator : list str -> str -> Z -> run (list str))
    (fs : files) (entries : list SubtitleEntry)
    (target_language : str) (max_concurrency : Z) (use_history : bool)
    (history_file : option str) (translated_texts : list str) :
  Forall (fun e => translated_content e <> []) entries ->
  entries <> [] ->
  translator (content <$> entries) target_language max_concurrency
    = Returns translated_texts ->
  translate_entries translator fs entries target_language max_concurrency
    use_history history_file
  = Returns {| entries_after := entries;
               stored := translated_content <$> entries;
               dispatched := [content <$> entries] |}.
Proof.
  intros Hall Hne Htranslator. rewrite translate_entries_unfold.
  rewrite bool_decide_eq_true_2
    by (destruct entries; [contradiction|discriminate]).
  rewrite Htranslator, (update_results_translated _ _ _ Hall). reflexivity.
Qed.

Lemma translated_entries_are_sent_but_kept_witness :
  let entries := [entry_of 1 "Hello" "Bonjour"; entry_of 2 "World" "Monde"] in
  translate_entries (R := decimal_runtime) (fun _ _ _ => Returns []) ∅
    entries (py "German") 5 false None
  = Returns {| entries_after := entries;
               stored := [py "Bonjour"; py "Monde"];
               dispatched := [[py "Hello"; py "World"]] |}.
Proof.
  intros entries.
  apply (translated_entries_are_sent_but_kept (R := decimal_runtime)
           (fun _ _ _ => Returns []) ∅ entries (py "German") 5 false None []).
  - repeat constructor; discriminate.
  - discriminate.
  - reflexivity.
Defined.

(** ** What the parser returns *)

Section in_order_facts.
Context {A K : Type} (lt : K -> K -> bool) (key : A -> K).
Hypothesis lt_asymmetric : forall a b, lt a b = true -> lt b a = false.

Lemma in_order_insert_sorted x l :
  in_order lt key l -> in_order lt key (insert_sorted lt key x l).
Proof using lt_asymmetric.
  induction l as [|y l IH]; intros Hl; [simpl; auto|].
  simpl. destruct (lt (key y) (key x)) eqn:Hyx.
  - destruct Hl as [Hy Hl]. specialize (IH Hl).
    split; [|exact IH].
    destruct l as [|z l]; simpl.
    + apply lt_asymmetric, Hyx.
    + destruct (lt (key z) (key x)); [exact Hy|].
      apply lt_asymmetric, Hyx.
  - split; [exact Hyx | exact Hl].
Qed.

Lemma in_order_sorted l : in_order lt key (sorted lt key l).
Proof using lt_asymmetric.
  induction l as [|x l IH]; [exact I|].
  apply in_order_insert_sorted, IH.
Qed.

Lemma in_order_lookup l : forall i x y,
  in_order lt key l ->
  l !! i = Some x -> l !! S i = Some y -> lt (key y) (key x) = false.
Proof.
  induction l as [|a l IH]; intros i x y Hl Hx Hy; [discriminate|].
  destruct Hl as [Ha Hl]. destruct i as [|i].
  - injection Hx as <-. destruct l as [|b l]; [discriminate|].
    injection Hy as <-. exact Ha.
  - exact (IH i x y Hl Hx Hy).
Qed.
End in_order_facts.

Section parser_more.
Context {R : PyRuntime}.

(** [parse_time] returns its argument trimmed, and takes what it returns
    to the same time. *)
Lemma parse_time_fixed time_str s d :
  parse_time time_str = Some (s, d) ->
  s = strip time_str /\ parse_time s = Some (s, d).
Proof.
  intros H.
  assert (s = strip time_str) as ->.
  { unfold parse_time in H.
    repeat match type of H with
           | (?x ≫= _) = _ => destruct x; simpl in H; try discriminate
           end.
    injection H as <- _. reflexivity. }
  split; [reflexivity|].
  unfold parse_time in *. rewrite strip_idempotent. exact H.
Qed.

(** The entry of a block carries the times as [parse_time] returned
    them. *)
Lemma parse_block_times block d e :
  parse_block block = Some (Some (d, e)) ->
  parse_time (start_time e) = Some (start_time e, d) /\
  exists line0 time_line a b,
    split (strip block) [LF] !! 0%nat = Some line0 /\
    py_int line0 = Some (index e) /\
    split (strip block) [LF] !! 1%nat = Some time_line /\
    split time_line (py " --> ") = [a; b] /\
    start_time e = strip a /\ end_time e = strip b /\
    content e = join [LF] (drop 2 (split (strip block) [LF])).
Proof.
  unfold parse_block. intros H.
  destruct (length (split (strip block) [LF]) <? 3)%nat; [discriminate|].
  destruct (split (strip block) [LF] !! 0%nat) as [line0|] eqn:H0;
    [|discriminate].
  simpl in H. destruct (py_int line0) as [i|] eqn:Hi; [|discriminate].
  simpl in H.
  destruct (split (strip block) [LF] !! 1%nat) as [time_line|] eqn:H1;
    [|discriminate].
  simpl in H.
  destruct (split time_line (py " --> ")) as [|a [|b [|c parts]]] eqn:Hab;
    try discriminate.
  destruct (parse_time a) as [[a' t]|] eqn:Ha; [|discriminate]. simpl in H.
  destruct (parse_time b) as [[b' t']|] eqn:Hb; [|discriminate]. simpl in H.
  injection H as <- <-. simpl.
  apply parse_time_fixed in Ha as [-> Ha].
  apply parse_time_fixed in Hb as [-> _].
  split; [exact Ha|].
  exists line0, time_line, a, b.
  split; [reflexivity|]. split; [exact Hi|]. split; [reflexivity|].
  split; [exact Hab|]. repeat split.
Qed.

Lemma parse_blocks_times blocks : forall parsed,
  parse_blocks blocks = Some parsed ->
  Forall (fun p => parse_time (start_time (snd p))
                   = Some (start_time (snd p), fst p)) parsed.
Proof.
  induction blocks as [|block blocks IH]; intros parsed H; simpl in H.
  - injection H as <-. constructor.
  - destruct (parse_block block) as [p|] eqn:Hblock; [|discriminate].
    simpl in H. destruct (parse_blocks blocks) as [rest|]; [|discriminate].
    simpl in H. injection H as <-. specialize (IH rest eq_refl).
    destruct p as [[d e]|]; [|exact IH].
    constructor; [|exact IH].
    exact (proj1 (parse_block_times _ _ _ Hblock)).
Qed.
End parser_more.

(** X17: whatever numbers and order the blocks of the file have, the
    entries that [parse_file] returns are numbered 1, 2, 3, ... and are
    in the order of their start times: the start time of every entry is
    a time stamp that [parse_time] reads, and the time of an entry is
    never before that of the entry ahead of it (given that [<] on
    [datetime] is asymmetric). *)
Theorem parse_content_numbers_and_orders {R : PyRuntime} (text : str)
    (entries : list SubtitleEntry) :
  (forall a b, datetime_lt a b = true -> datetime_lt b a = false) ->
  parse_content text = Some entries ->
  forall i e, entries !! i = Some e ->
    index e = Z.of_nat i + 1 /\
    exists d,
      parse_time (start_time e) = Some (start_time e, d) /\
      forall e' d',
        entries !! S i = Some e' ->
        parse_time (start_time e') = Some (start_time e', d') ->
        datetime_lt d' d = false.
Proof.
  intros Hasym Hparse i e He. unfold parse_content in Hparse.
  destruct (parse_blocks (split (strip text) [LF; LF])) as [parsed|] eqn:Hp;
    [|discriminate].
  simpl in Hparse. injection Hparse as <-.
  apply parse_blocks_times in Hp.
  apply (Forall_sorted datetime_lt fst) in Hp.
  apply list_lookup_imap_Some in He as (p & Hi & ->).
  split; [reflexivity|]. exists (fst p).
  split; [exact (Forall_lookup_1 _ _ _ _ Hp Hi)|].
  intros e' d' He' Hd'.
  apply list_lookup_imap_Some in He' as (p' & Hi' & ->).
  pose proof (Forall_lookup_1 _ _ _ _ Hp Hi') as Hp'. simpl in Hp', Hd'.
  rewrite Hp' in Hd'. injection Hd' as <-.
  exact (in_order_lookup datetime_lt fst _ i p p'
           (in_order_sorted datetime_lt fst Hasym parsed) Hi Hi').
Qed.

Lemma decimal_lt_asymmetric (a b : Q) :
  negb (Qle_bool b a) = true -> negb (Qle_bool a b) = false.
Proof.
  intros Hab. apply negb_true_iff in Hab. apply negb_false_iff.
  apply Qle_bool_iff.
  destruct (Qlt_le_dec a b) as [Hlt|Hle]; [apply Qlt_le_weak, Hlt|].
  apply Qle_bool_iff in Hle. congruence.
Qed.

Lemma parse_content_numbers_and_orders_witness :
  let text :=
    file_of_lines ["7"; "00:00:03,000 --> 00:00:04,500"; "World"; "";
                   "4"; " 00:00:01,000 --> 00:00:02,000"; "Hello"]%string in
  let hello :=
    {| index := 1; start_time := py "00:00:01,000";
       end_time := py "00:00:02,000"; content := py "Hello";
       translated_content := [] |} in
  let world :=
    {| index := 2; start_time := py "00:00:03,000";
       end_time := py "00:00:04,500"; content := py "World";
       translated_content := [] |} in
  parse_content (R := decimal_runtime) text = Some [hello; world] /\
  index hello = 1 /\
  exists d,
    parse_time (R := decimal_runtime) (start_time hello)
      = Some (start_time hello, d) /\
    forall e' d',
      [hello; world] !! 1%nat = Some e' ->
      parse_time (R := decimal_runtime) (start_time e')
        = Some (start_time e', d') ->
      datetime_lt d' d = false.
Proof.
  intros text hello world. split; [reflexivity|].
  apply (parse_content_numbers_and_orders (R := decimal_runtime) text
           [hello; world] decimal_lt_asymmetric eq_refl 0%nat hello).
  reflexivity.
Defined.

(** X18: the entries that [parse_file] returns are the entries of the
    blocks it read, every one once and none else, but for their
    numbers: sorting drops and doubles nothing. *)
Theorem parse_content_keeps_every_block {R : PyRuntime} (text : str)
    (entries : list SubtitleEntry) :
  parse_content text = Some entries ->
  exists parsed,
    parse_blocks (split (strip text) [LF; LF]) = Some parsed /\
    length entries = length parsed /\
    set_index 0 <$> entries ≡ₚ set_index 0 ∘ snd <$> parsed.
Proof.
  unfold parse_content. intros Hparse.
  destruct (parse_blocks (split (strip text) [LF; LF])) as [parsed|];
    [|discriminate].
  simpl in Hparse. injection Hparse as <-.
  exists parsed. split; [reflexivity|].
  split; [rewrite length_imap;
          exact (Permutation_length (sorted_Permutation datetime_lt fst parsed))|].
  rewrite <- (sorted_Permutation datetime_lt fst parsed) at 2.
  generalize (sorted datetime_lt fst parsed) as l. intros l.
  assert (forall k, set_index 0 <$> imap (fun i e => set_index (Z.of_nat (k + i) + 1) (snd e)) l
                    = set_index 0 ∘ snd <$> l) as Hk.
  { induction l as [|p l IH]; intros k; [reflexivity|].
    rewrite imap_cons, !fmap_cons. f_equal.
    rewrite <- (IH (S k)). f_equal. apply imap_ext. intros i x _. simpl.
    do 2 f_equal. lia. }
  rewrite <- (Hk O). reflexivity.
Qed.

Lemma parse_content_keeps_every_block_witness :
  exists parsed,
    parse_blocks (R := decimal_runtime) (split (strip hello_world) [LF; LF])
      = Some parsed /\
    length [entry_of 1 "Hello" "";
            {| index := 2; start_time := py "00:00:03,000";
               end_time := py "00:00:04,500"; content := py "World";
               translated_content := [] |}] = length parsed /\
    set_index 0 <$> [entry_of 1 "Hello" "";
                     {| index := 2; start_time := py "00:00:03,000";
                        end_time := py "00:00:04,500"; content := py "World";
                        translated_content := [] |}]
    ≡ₚ set_index 0 ∘ snd <$> parsed.
Proof.
  apply (parse_content_keeps_every_block (R := decimal_runtime) hello_world).
  reflexivity.
Defined.

(** X19: the two readers on one block of four lines or more, as the
    merged file has them for a translated subtitle: when [parse_file]
    reads the block, [split_translated_file] reads it too, with the same
    number and times; its text is the third line and its translation
    the fourth, whereas the text of [parse_file] is all lines from the
    third on, the translation among them, and its translation is
    empty. *)
Theorem readers_of_a_merged_block {R : PyRuntime} (block : str)
    (d : datetime) (e : SubtitleEntry) :
  parse_block block = Some (Some (d, e)) ->
  (4 <= length (split (strip block) [LF]))%nat ->
  exists e',
    split_block block = Some (Some e') /\
    index e' = index e /\
    start_time e' = start_time e /\ end_time e' = end_time e /\
    content e
    = join [LF] (content e' :: translated_content e'
                   :: drop 4 (split (strip block) [LF])) /\
    translated_content e = [].
Proof.
  intros Hparse Hlen.
  pose proof (parse_block_translated_content _ _ _ Hparse) as Hnone.
  destruct (parse_block_times _ _ _ Hparse)
    as (_ & line0 & time_line & a & b & H0 & Hi & H1 & Hab & Hs & He & Hc).
  unfold split_block.
  destruct (split (strip block) [LF]) as [|l0 [|l1 [|l2 [|l3 rest]]]];
    simpl in Hlen; try lia.
  assert ((length (l0 :: l1 :: l2 :: l3 :: rest) <? 4)%nat = false) as ->
    by (apply Nat.ltb_ge; simpl; lia).
  simpl in H0, H1. injection H0 as <-. injection H1 as <-.
  cbn -[py split strip]. rewrite Hi. cbn -[py split strip]. rewrite Hab.
  eexists. split; [reflexivity|]. cbn -[py split strip join].
  repeat split; try congruence. exact Hc.
Qed.

Lemma readers_of_a_merged_block_witness :
  let block := py "1
00:00:01,000 --> 00:00:02,000
Hello
Bonjour" in
  let e :=
    {| index := 1; start_time := py "00:00:01,000";
       end_time := py "00:00:02,000"; content := py "Hello" ++ [LF] ++ py "Bonjour";
       translated_content := [] |} in
  exists e',
    split_block (R := decimal_runtime) block = Some (Some e') /\
    index e' = index e /\
    start_time e' = start_time e /\ end_time e' = end_time e /\
    content e
    = join [LF] (content e' :: translated_content e'
                   :: drop 4 (split (strip block) [LF])) /\
    translated_content e = [].
Proof.
  intros block e.
  apply (readers_of_a_merged_block (R := decimal_runtime) block (1 # 1)%Q e).
  - reflexivity.
  - vm_compute. lia.
Defined.

Lemma sorted_in_order {A K} (lt : K -> K -> bool) (key : A -> K) (l : list A) :
  in_order lt key l -> sorted lt key l = l.
Proof.
  induction l as [|x l IH]; intros Hl; [reflexivity|].
  destruct Hl as [Hx Hl]. unfold sorted in *. simpl. rewrite (IH Hl).
  destruct l as [|y l']; [reflexivity|]. simpl. rewrite Hx. reflexivity.
Qed.

(** X20: a file whose blocks come in the order of their start times,
    blocks of the same start time included, is returned block by block
    in the order of the file; only the numbers are new. *)
Theorem parse_content_of_a_file_in_order {R : PyRuntime} (text : str)
    (parsed : list (datetime * SubtitleEntry)) :
  parse_blocks (split (strip text) [LF; LF]) = Some parsed ->
  in_order datetime_lt fst parsed ->
  parse_content text
  = Some (imap (fun i p => set_index (Z.of_nat i + 1) (snd p)) parsed) /\
  set_index 0 <$> default [] (parse_content text)
  = set_index 0 ∘ snd <$> parsed.
Proof.
  intros Hparsed Horder. unfold parse_content. rewrite Hparsed. simpl.
  rewrite (sorted_in_order _ _ _ Horder). split; [reflexivity|].
  generalize parsed as l. intros l.
  assert (forall k,
            set_index 0
              <$> imap (fun i e => set_index (Z.of_nat (k + i) + 1) (snd e)) l
            = set_index 0 ∘ snd <$> l) as Hk.
  { induction l as [|p l IH]; intros k; [reflexivity|].
    rewrite imap_cons, !fmap_cons. f_equal.
    rewrite <- (IH (S k)). f_equal. apply imap_ext. intros i x _. simpl.
    do 2 f_equal. lia. }
  exact (Hk O).
Qed.

Lemma parse_content_of_a_file_in_order_witness :
  let text :=
    file_of_lines ["9"; "00:00:01,000 --> 00:00:02,000"; "Hello"; "";
                   "3"; "00:00:01,000 --> 00:00:04,500"; "World"]%string in
  (content <$> default [] (parse_content (R := decimal_runtime) text))
  = [py "Hello"; py "World"] /\
  (index <$> default [] (parse_content (R := decimal_runtime) text)) = [1; 2].
Proof.
  intros text.
  destruct (parse_blocks (R := decimal_runtime) (split (strip text) [LF; LF]))
    as [parsed|] eqn:Hparsed; [|discriminate Hparsed].
  assert (in_order (datetime_lt (PyRuntime := decimal_runtime)) fst parsed)
    as Horder.
  { vm_compute in Hparsed. injection Hparsed as <-. vm_compute. auto. }
  destruct (parse_content_of_a_file_in_order (R := decimal_runtime) text parsed
              Hparsed Horder) as [-> _].
  vm_compute in Hparsed. injection Hparsed as <-. split; reflexivity.
Defined.
